(** * Retrieval pipeline and query cache: a shallow embedding

    The development follows two notebooks of the repository:

    - the LRU query cache and [cached_query] (chapter 5, notebook 05_02);
    - the retrievers [WeightedFusionRetriever], [RerankedRetriever] and the
      configurable [RetrievalPipeline] (the retrieval-pipeline notebook).

    Python exceptions are values of [exn]; a call that may raise returns a
    [result].  Dictionaries whose iteration order is observable are
    association lists in insertion order; the cache dictionary, whose order
    is never observed, is a [gmap]. *)

From Stdlib Require Import ZArith Lia Ascii String Sorted.
From Stdlib Require Import DecimalString DecimalPos DecimalZ.
From stdpp Require Import base option list gmap strings sets.

Set Warnings "-register-all".

Local Open Scope Z_scope.

(** ** Exceptions and results *)

(** The exceptions of the code itself, the failure of the reranking model,
    and [LibraryError name] for any other exception class that a library
    call may raise. *)
Inductive exn : Type :=
  | ValueError
  | IndexError
  | KeyError
  | StopIteration
  | ModelError
  | LibraryError (name : string).

Inductive result (A : Type) : Type :=
  | Ok (a : A)
  | Raise (e : exn).

Arguments Ok {A} a.
Arguments Raise {A} e.

(** ** The LRU cache (notebook 05_02, class [LRUCache]) *)

Module LRU.

Section Cache.
Context {K V : Type} `{Countable K}.

(** [self.capacity], [self.cache], [self.usage_order]. *)
Record LRUCache : Type := mkLRU {
  capacity : Z;
  cache : gmap K V;
  usage_order : list K
}.

(** [LRUCache(capacity)]. *)
Definition init (cap : Z) : LRUCache := mkLRU cap ∅ [].

(** [list.remove(key)]: drops the first occurrence; [None] stands for the
    [ValueError] Python raises when the key is absent. *)
Fixpoint list_remove (key : K) (l : list K) : option (list K) :=
  match l with
  | [] => None
  | y :: l' =>
      if decide (key = y) then Some l'
      else match list_remove key l' with
           | Some r => Some (y :: r)
           | None => None
           end
  end.

(** [__len__]. *)
Definition len (self : LRUCache) : Z := Z.of_nat (size (cache self)).

(** [get(key)]: on a hit the key moves to the end of [usage_order]. *)
Definition get (key : K) (self : LRUCache) : result (option V * LRUCache) :=
  match cache self !! key with
  | Some v =>
      match list_remove key (usage_order self) with
      | Some l => Ok (Some v, mkLRU (capacity self) (cache self) (l ++ [key]))
      | None => Raise ValueError
      end
  | None => Ok (None, self)
  end.

(** [put(key, value)]. *)
Definition put (key : K) (value : V) (self : LRUCache) : result LRUCache :=
  match cache self !! key with
  | Some _ =>
      match list_remove key (usage_order self) with
      | Some l =>
          Ok (mkLRU (capacity self) (<[key := value]> (cache self)) (l ++ [key]))
      | None => Raise ValueError
      end
  | None =>
      if Z.leb (capacity self) (len self) then
        (* usage_order.pop(0); del self.cache[lru_key] *)
        match usage_order self with
        | [] => Raise IndexError
        | lru_key :: rest =>
            match cache self !! lru_key with
            | None => Raise KeyError
            | Some _ =>
                Ok (mkLRU (capacity self)
                          (<[key := value]> (delete lru_key (cache self)))
                          (rest ++ [key]))
            end
        end
      else
        Ok (mkLRU (capacity self) (<[key := value]> (cache self))
                  (usage_order self ++ [key]))
  end.

(** [clear()]. *)
Definition clear (self : LRUCache) : LRUCache :=
  mkLRU (capacity self) ∅ [].

(** A client's calls, and their effect in sequence. *)
Inductive op : Type :=
  | Get (key : K)
  | Put (key : K) (value : V)
  | Clear.

Definition step (o : op) (self : LRUCache) : result LRUCache :=
  match o with
  | Get key =>
      match get key self with
      | Ok (_, self') => Ok self'
      | Raise e => Raise e
      end
  | Put key value => put key value self
  | Clear => Ok (clear self)
  end.

Fixpoint run (ops : list op) (self : LRUCache) : result LRUCache :=
  match ops with
  | [] => Ok self
  | o :: ops' =>
      match step o self with
      | Ok self' => run ops' self'
      | Raise e => Raise e
      end
  end.

(** [put] of a list of entries, left to right. *)
Definition puts (kvs : list (K * V)) : LRUCache -> result LRUCache :=
  run (map (fun kv => Put kv.1 kv.2) kvs).

(** The representation invariant: [usage_order] lists the keys of the
    dictionary, each once. *)
Definition keys_agree (self : LRUCache) : Prop :=
  NoDup (usage_order self) ∧
  ∀ k, k ∈ usage_order self ↔ is_Some (cache self !! k).

Definition within_capacity (self : LRUCache) : Prop :=
  len self <= capacity self.

Definition inv (self : LRUCache) : Prop :=
  keys_agree self ∧ within_capacity self.

End Cache.

Arguments LRUCache K V {_ _}.
Arguments op K V : clear implicits.

End LRU.

(** ** The cached query function (notebook 05_02, [cached_query]) *)

Module CachedQuery.

(** [str(n)] for a Python [int]: decimal digits, with a minus sign when
    negative. *)
Definition str_int (n : Z) : string :=
  NilZero.string_of_int (Z.to_int n).

(** [f"{query_text}:{n_results}"]. *)
Definition cache_key (query_text : string) (n_results : Z) : string :=
  query_text +:+ ":" +:+ str_int n_results.

(** Occurrence of a character in a string. *)
Fixpoint occurs (a : ascii) (s : string) : bool :=
  match s with
  | EmptyString => false
  | String b s' => Ascii.eqb a b || occurs a s'
  end.

Section Query.
(** [R] is what [collection.query] returns (never [None]);
    [collection_query] stands for the vector store. *)
Context {R : Type}.
Variable collection_query : string -> Z -> R.

(** The global [query_cache] and the list of calls made to the store. *)
Record world : Type := mkWorld {
  query_cache : LRU.LRUCache string R;
  store_calls : list (string * Z)
}.

(** [query_cache = LRUCache(capacity=50)]. *)
Definition initial_world : world := mkWorld (LRU.init 50) [].

Definition do_query (query_text : string) (n_results : Z)
    (use_cache : bool) (c : LRU.LRUCache string R) (calls : list (string * Z))
    : result ((R * bool) * world) :=
  let result := collection_query query_text n_results in
  let calls' := calls ++ [(query_text, n_results)] in
  if use_cache then
    match LRU.put (cache_key query_text n_results) result c with
    | Ok c' => Ok ((result, false), mkWorld c' calls')
    | Raise e => Raise e
    end
  else Ok ((result, false), mkWorld c calls').

(** [cached_query(query_text, n_results, use_cache)]: the result and the
    hit flag, with the world after the call. *)
Definition cached_query (query_text : string) (n_results : Z)
    (use_cache : bool) (w : world) : result ((R * bool) * world) :=
  let cache_key := cache_key query_text n_results in
  if use_cache then
    match LRU.get cache_key (query_cache w) with
    | Raise e => Raise e
    | Ok (Some cached_result, c') =>
        Ok ((cached_result, true), mkWorld c' (store_calls w))
    | Ok (None, c') =>
        do_query query_text n_results use_cache c' (store_calls w)
    end
  else do_query query_text n_results use_cache (query_cache w) (store_calls w).

End Query.

End CachedQuery.

(** ** Retrievers (retrieval-pipeline notebook) *)

(** Scores are Python floats.  The code adds, multiplies and subtracts them
    and compares them with [<]; the model is generic in such a number type.
    [num_sum] is the interpreter's [sum] of three or more values: on the
    repository's Python 3.12 it is a compensated summation for floats and
    not the chain of additions. *)
Class Number (S : Type) : Type := {
  num_zero : S;
  num_one : S;
  num_add : S -> S -> S;
  num_mul : S -> S -> S;
  num_sub : S -> S -> S;
  num_lt : S -> S -> bool;
  num_sum : list S -> S
}.

(** What sorting needs of [<]: a strict weak order (floats without NaN,
    integers, rationals). *)
Class StrictWeak (S : Type) `{Number S} : Prop := {
  lt_asym : forall a b : S, num_lt a b = true -> num_lt b a = false;
  lt_negtrans : forall a b c : S,
      num_lt a b = false -> num_lt b c = false -> num_lt a c = false
}.

#[export] Instance Z_Number : Number Z :=
  {| num_zero := 0; num_one := 1; num_add := Z.add; num_mul := Z.mul;
     num_sub := Z.sub; num_lt := Z.ltb;
     num_sum := fun values => fold_left Z.add values 0 |}.

Record TextNode : Type := mkTextNode {
  node_id : string;
  get_content : string
}.

Record NodeWithScore (S : Type) : Type := mkNodeWithScore {
  node : TextNode;
  score : S
}.

Arguments mkNodeWithScore {S} node score.
Arguments node {S} _.
Arguments score {S} _.

(** The collaborators, outside the repository.  Each library call can
    raise, at construction as at retrieval:
    - [bm25_from_defaults nodes k] is
      [BM25Retriever.from_defaults(nodes, similarity_top_k=k)] and
      [bm25_retrieve nodes k query] the [retrieve(query)] of that retriever;
    - [vector_index nodes k] is [HuggingFaceEmbedding(...)],
      [VectorStoreIndex(nodes, embed_model)] and
      [as_retriever(similarity_top_k=k)], and [vector_retrieve nodes k query]
      the [retrieve(query)] of the result;
    - [cross_encoder] is [CrossEncoder(model_name, device)] in
      [RerankedRetriever.__init__], and [predict pairs] its [predict]
      ([None] when the model fails);
    - [time_time] gives the successive readings of [time.time()]. *)
Class Collaborators (S : Type) : Type := {
  bm25_from_defaults : list TextNode -> Z -> result unit;
  bm25_retrieve :
    list TextNode -> Z -> string -> result (list (NodeWithScore S));
  vector_index : list TextNode -> Z -> result unit;
  vector_retrieve :
    list TextNode -> Z -> string -> result (list (NodeWithScore S));
  cross_encoder : result unit;
  predict : list (string * string) -> option (list S);
  time_time : nat -> S
}.

(** Calls made to the collaborators, in order. *)
Inductive event : Type :=
  | CallBM25 (query : string)
  | CallVector (query : string)
  | CallPredict (pairs : list (string * string)).

(** Insertion-ordered dictionaries with string keys. *)
Module Dict.
Section Dict.
Context {V : Type}.

Definition t : Type := list (string * V).

Fixpoint get (k : string) (d : t) : option V :=
  match d with
  | [] => None
  | (k', v) :: d' => if String.eqb k k' then Some v else get k d'
  end.

(** [d[k] = v]: replaces in place, or appends a new key. *)
Fixpoint set (k : string) (v : V) (d : t) : t :=
  match d with
  | [] => [(k, v)]
  | (k', v') :: d' =>
      if String.eqb k k' then (k, v) :: d' else (k', v') :: set k v d'
  end.

Definition keys (d : t) : list string := map fst d.
Definition values (d : t) : list V := map snd d.
End Dict.
Arguments t V : clear implicits.
End Dict.

(** [l[:k]] with Python's reading of a negative bound. *)
Definition slice_to {A : Type} (l : list A) (k : Z) : list A :=
  if 0 <=? k then take (Z.to_nat k) l
  else take (Z.to_nat (Z.of_nat (length l) + k)) l.

(** A computation that calls collaborators: its outcome and the calls. *)
Definition M (A : Type) : Type := result A * list event.

Definition ret {A : Type} (a : A) : M A := (Ok a, []).

Definition bind {A B : Type} (m : M A) (f : A -> M B) : M B :=
  match m with
  | (Ok a, evs) => let '(r, evs') := f a in (r, evs ++ evs')
  | (Raise e, evs) => (Raise e, evs)
  end.

Notation "'let+' x := m 'in' f" := (bind m (fun x => f))
  (at level 10, x name, m at level 100, f at level 200).

Section Retrievers.
Context {S : Type} `{Number S} `{Collaborators S}.

Inductive Retriever : Type :=
  | BM25Retriever (nodes : list TextNode) (similarity_top_k : Z)
  | VectorIndexRetriever (nodes : list TextNode) (similarity_top_k : Z)
  | WeightedFusionRetriever
      (retrievers : Dict.t Retriever) (weights : Dict.t S)
  | RerankedRetriever (base_retriever : Retriever) (fetch_k top_k : Z).

(** [sorted(l, key=lambda x: x.score, reverse=True)]: a stable sort,
    larger scores first; an element moves behind another only when its
    score is strictly smaller. *)
Fixpoint insert_desc (x : NodeWithScore S) (l : list (NodeWithScore S))
    : list (NodeWithScore S) :=
  match l with
  | [] => [x]
  | y :: l' =>
      if num_lt (score x) (score y) then y :: insert_desc x l'
      else x :: y :: l'
  end.

Fixpoint sorted_desc (l : list (NodeWithScore S)) : list (NodeWithScore S) :=
  match l with
  | [] => []
  | x :: l' => insert_desc x (sorted_desc l')
  end.

(** [sum(values)]: for up to two values, 0 plus the first plus the second
    (the compensation of a float sum of two values leaves the rounded sum
    unchanged); for three or more, the interpreter's summation. *)
Definition sum (values : list S) : S :=
  match values with
  | _ :: _ :: _ :: _ => num_sum values
  | _ => fold_left num_add values num_zero
  end.

(** The body of the inner loop of [WeightedFusionRetriever._retrieve]. *)
Definition add_result (name : string) (weight : S)
    (all_results : Dict.t (TextNode * Dict.t S)) (n : NodeWithScore S)
    : Dict.t (TextNode * Dict.t S) :=
  let node_id := node_id (node n) in
  let weighted_score := num_mul (score n) weight in
  match Dict.get node_id all_results with
  | None =>
      Dict.set node_id (node n, Dict.set name weighted_score []) all_results
  | Some (nd, scores) =>
      Dict.set node_id (nd, Dict.set name weighted_score scores) all_results
  end.

(** [self.weights.get(name, 1.0)]. *)
Definition weight_of (weights : Dict.t S) (name : string) : S :=
  match Dict.get name weights with
  | Some w => w
  | None => num_one
  end.

Definition final_results (all_results : Dict.t (TextNode * Dict.t S))
    : list (NodeWithScore S) :=
  map (fun item => mkNodeWithScore (fst (snd item))
                     (sum (Dict.values (snd (snd item)))))
      all_results.

(** Fusion of results already retrieved, one list per retriever name:
    the two loops, the comprehension and the sort. *)
Definition accumulate (weights : Dict.t S)
    (all_results : Dict.t (TextNode * Dict.t S))
    (named : string * list (NodeWithScore S))
    : Dict.t (TextNode * Dict.t S) :=
  fold_left (add_result (fst named) (weight_of weights (fst named)))
            (snd named) all_results.

Definition fuse (named_results : list (string * list (NodeWithScore S)))
    (weights : Dict.t S) : list (NodeWithScore S) :=
  sorted_desc (final_results (fold_left (accumulate weights) named_results [])).

(** The part of [RerankedRetriever._retrieve] after the base retriever
    has answered. *)
Definition rerank (query : string) (retrieved : list (NodeWithScore S))
    (fetch_k top_k : Z) : M (list (NodeWithScore S)) :=
  let base_nodes := slice_to retrieved fetch_k in
  match base_nodes with
  | [] => ret []
  | _ :: _ =>
      let node_texts := map (fun n => get_content (node n)) base_nodes in
      let pairs := map (fun text => (query, text)) node_texts in
      match predict pairs with
      | None => (Raise ModelError, [CallPredict pairs])
      | Some rerank_scores =>
          let reranked_nodes :=
            zip_with (fun n s => mkNodeWithScore (node n) s)
                     base_nodes rerank_scores in
          let reranked_nodes := sorted_desc reranked_nodes in
          (Ok (if top_k =? 0 then reranked_nodes
               else slice_to reranked_nodes top_k),
           [CallPredict pairs])
      end
  end.

(** [retriever.retrieve(query_bundle)], by class.  For the two classes of
    the repository this is the body of [_retrieve]; what the framework's
    [retrieve] does around it (callbacks, removal of nodes that repeat the
    content of an earlier node) is not part of the model.  The two library
    retrievers are collaborators: each call is recorded, and its list or
    its exception is the outcome. *)
Fixpoint retrieve (r : Retriever) (query : string)
    : M (list (NodeWithScore S)) :=
  match r with
  | BM25Retriever nodes k =>
      (bm25_retrieve nodes k query, [CallBM25 query])
  | VectorIndexRetriever nodes k =>
      (vector_retrieve nodes k query, [CallVector query])
  | WeightedFusionRetriever retrievers weights =>
      let fix loop (rs : Dict.t Retriever)
                   (all_results : Dict.t (TextNode * Dict.t S))
          : M (Dict.t (TextNode * Dict.t S)) :=
        match rs with
        | [] => ret all_results
        | (name, retriever) :: rs' =>
            let+ results := retrieve retriever query in
            loop rs' (accumulate weights all_results (name, results))
        end in
      let+ all_results := loop retrievers [] in
      ret (sorted_desc (final_results all_results))
  | RerankedRetriever base_retriever fetch_k top_k =>
      let+ retrieved := retrieve base_retriever query in
      rerank query retrieved fetch_k top_k
  end.

(** ** The configurable pipeline *)

Record Config : Type := mkConfig {
  use_bm25 : bool;
  use_vector : bool;
  use_hybrid : bool;
  use_reranking : bool;
  vector_weight : S;
  bm25_weight : S;
  top_k : Z;
  rerank_top_k : Z
}.

Record RetrievalPipeline : Type := mkPipeline {
  config : Config;
  pipeline : option Retriever
}.

(** [RetrievalPipeline(...)]: nothing is built yet. *)
Definition new_pipeline (c : Config) : RetrievalPipeline :=
  mkPipeline c None.

(** [build(nodes)].  The library objects are created in the order of the
    source: the BM25 retriever, the vector index with its retriever, and,
    after the choice of the base retriever, the cross-encoder; an exception
    of a constructor leaves [build]. *)
Definition build (self : RetrievalPipeline) (nodes : list TextNode)
    : result RetrievalPipeline :=
  let c := config self in
  let retrievers : Dict.t Retriever := [] in
  match (if use_bm25 c then bm25_from_defaults nodes (top_k c) else Ok tt) with
  | Raise e => Raise e
  | Ok _ =>
  let retrievers :=
    if use_bm25 c
    then Dict.set "bm25" (BM25Retriever nodes (top_k c)) retrievers
    else retrievers in
  match (if use_vector c then vector_index nodes (top_k c) else Ok tt) with
  | Raise e => Raise e
  | Ok _ =>
  let retrievers :=
    if use_vector c
    then Dict.set "vector" (VectorIndexRetriever nodes (top_k c)) retrievers
    else retrievers in
  let base :=
    if use_hybrid c && (1 <? length retrievers)%nat then
      let weights :=
        Dict.set "bm25" (bm25_weight c)
          (Dict.set "vector" (vector_weight c) []) in
      Ok (WeightedFusionRetriever retrievers weights)
    else
      (* next(iter(retrievers.keys())) *)
      match Dict.keys retrievers with
      | [] => Raise StopIteration
      | retriever_name :: _ =>
          match Dict.get retriever_name retrievers with
          | Some r => Ok r
          | None => Raise KeyError
          end
      end in
  match base with
  | Raise e => Raise e
  | Ok base_retriever =>
      if use_reranking c then
        (* RerankedRetriever.__init__ loads the cross-encoder *)
        match cross_encoder with
        | Raise e => Raise e
        | Ok _ =>
            Ok (mkPipeline c
                  (Some (RerankedRetriever base_retriever
                           (rerank_top_k c) (top_k c))))
        end
      else Ok (mkPipeline c (Some base_retriever))
  end
  end
  end.

(** The calls made so far and the number of clock readings. *)
Record World : Type := mkWorld {
  trace : list event;
  ticks : nat
}.

(** [retrieve(query)]: the ranked results with the elapsed time. *)
Definition pipeline_retrieve (self : RetrievalPipeline) (query : string)
    (w : World) : result (list (NodeWithScore S) * S) * World :=
  match pipeline self with
  | None => (Raise ValueError, w)
  | Some p =>
      let start_time := time_time (ticks w) in
      match retrieve p query with
      | (Ok results, evs) =>
          let elapsed := num_sub (time_time (ticks w + 1)%nat) start_time in
          (Ok (results, elapsed), mkWorld (trace w ++ evs) (ticks w + 2)%nat)
      | (Raise e, evs) =>
          (Raise e, mkWorld (trace w ++ evs) (ticks w + 1)%nat)
      end
  end.

End Retrievers.

Arguments Retriever S : clear implicits.
Arguments Config S : clear implicits.
Arguments RetrievalPipeline S : clear implicits.

(** ** Vocabulary of the statements *)

Section Vocabulary.
Context {S : Type} `{Number S} `{Collaborators S}.

(** [x] is not ranked below [y]. *)
Definition not_below (x y : NodeWithScore S) : Prop :=
  num_lt (score x) (score y) = false.

(** A node whose score neither exceeds [s] nor is exceeded by it. *)
Definition tied (s : S) (x : NodeWithScore S) : bool :=
  negb (num_lt s (score x)) && negb (num_lt (score x) s).

Definition ids_of (l : list (NodeWithScore S)) : list string :=
  map (fun n => node_id (node n)) l.

(** The document ids of all candidate lists, in the order in which the
    fusion loop meets them. *)
Definition candidate_ids (named : list (string * list (NodeWithScore S)))
    : list string :=
  concat (map (fun nl => ids_of (snd nl)) named).

Definition mem (i : string) (seen : list string) : bool :=
  existsb (String.eqb i) seen.

Definition push (seen : list string) (i : string) : list string :=
  if mem i seen then seen else seen ++ [i].

(** The distinct ids of a list, in order of first occurrence. *)
Definition first_seen (ids : list string) : list string :=
  fold_left push ids [].

(** Every entry of [all_results] is filed under the id of its node. *)
Definition well_keyed (all_results : Dict.t (TextNode * Dict.t S)) : Prop :=
  Forall (fun item => node_id (fst (snd item)) = fst item) all_results.

(** Each named retriever answers the query with the list of the same
    name. *)
Definition answers (query : string) (retrievers : Dict.t (Retriever S))
    (named : list (string * list (NodeWithScore S))) : Prop :=
  Forall2 (fun nr nl => fst nr = fst nl ∧
                        ∃ evs, retrieve (snd nr) query = (Ok (snd nl), evs))
          retrievers named.

(** The pairs handed to the model for the first [fetch_k] candidates. *)
Definition model_input (query : string) (retrieved : list (NodeWithScore S))
    (fetch_k : Z) : list (string * string) :=
  map (fun text => (query, text))
      (map (fun n => get_content (node n)) (slice_to retrieved fetch_k)).

(** Two outcomes of a pipeline call agree on the ranked list, or on the
    exception. *)
Definition same_ranking (r1 r2 : result (list (NodeWithScore S) * S)) : Prop :=
  match r1, r2 with
  | Ok (results1, _), Ok (results2, _) => results1 = results2
  | Raise e1, Raise e2 => e1 = e2
  | _, _ => False
  end.

End Vocabulary.

(** ** A small concrete setting, with integer scores *)

Module Example.

Definition doc_a : TextNode := mkTextNode "a" "alpha".
Definition doc_b : TextNode := mkTextNode "b" "beta beta".

(** Libraries that always answer.  Every document scores 1; BM25 ranks in
    corpus order, the vector index in reverse corpus order; the model
    scores a pair by the length of the document text; the clock advances
    by one per reading. *)
Definition working : Collaborators Z :=
  {| bm25_from_defaults _ _ := Ok tt;
     bm25_retrieve nodes k _ :=
       Ok (slice_to (map (fun n => mkNodeWithScore n 1) nodes) k);
     vector_index _ _ := Ok tt;
     vector_retrieve nodes k _ :=
       Ok (slice_to (map (fun n => mkNodeWithScore n 1) (rev nodes)) k);
     cross_encoder := Ok tt;
     predict pairs :=
       Some (map (fun p => Z.of_nat (String.length (snd p))) pairs);
     time_time n := Z.of_nat n |}.

(** The same retrievers with a model that fails. *)
Definition model_down : Collaborators Z :=
  {| bm25_from_defaults := @bm25_from_defaults Z working;
     bm25_retrieve := @bm25_retrieve Z working;
     vector_index := @vector_index Z working;
     vector_retrieve := @vector_retrieve Z working;
     cross_encoder := Ok tt;
     predict _ := None;
     time_time := @time_time Z working |}.

(** The same collaborators with a BM25 library that cannot index an
    empty corpus and that raises [ValueError] when asked for more results
    than the corpus has documents; the second is what the pinned
    retriever does. *)
Definition strict : Collaborators Z :=
  {| bm25_from_defaults nodes _ :=
       match nodes with [] => Raise ValueError | _ :: _ => Ok tt end;
     bm25_retrieve nodes k query :=
       if Z.of_nat (length nodes) <? k then Raise ValueError
       else @bm25_retrieve Z working nodes k query;
     vector_index := @vector_index Z working;
     vector_retrieve := @vector_retrieve Z working;
     cross_encoder := Ok tt;
     predict := @predict Z working;
     time_time := @time_time Z working |}.

Definition start : World := mkWorld [] 0.

Definition corpus : list TextNode := [doc_b; doc_a].

(** A hybrid setting with [top_k = 1] and equal weights. *)
Definition hybrid_retrievers : Dict.t (Retriever Z) :=
  [("bm25"%string, BM25Retriever corpus 1);
   ("vector"%string, VectorIndexRetriever corpus 1)].

Definition hybrid_weights : Dict.t Z :=
  [("vector"%string, 1); ("bm25"%string, 1)].

Definition hybrid_answers : list (string * list (NodeWithScore Z)) :=
  [("bm25"%string, [mkNodeWithScore doc_b 1]);
   ("vector"%string, [mkNodeWithScore doc_a 1])].

Definition hybrid_config : Config Z :=
  mkConfig true true true false 1 1 1 10.

(** BM25 alone over two documents, with and without reranking. *)
Definition bm25_base : Retriever Z := BM25Retriever [doc_a; doc_b] 5.

Definition bm25_answer : list (NodeWithScore Z) :=
  [mkNodeWithScore doc_a 1; mkNodeWithScore doc_b 1].

Definition bm25_only : Config Z :=
  mkConfig true false true false 7 3 5 10.

Definition bm25_reranked : Config Z :=
  mkConfig true false true true 7 3 5 10.

End Example.

(** ** Vocabulary for sequences of cache calls *)

Section CacheCalls.
Context {K V : Type} `{Countable K}.

(** A [get] or a [put] whose key lies in [D]; [clear] is excluded. *)
Definition touches_only (D : gset K) (o : LRU.op K V) : Prop :=
  match o with
  | LRU.Get key => key ∈ D
  | LRU.Put key _ => key ∈ D
  | LRU.Clear => False
  end.

(** [k] is in [usage_order], and every key used more recently than [k]
    is in [D]. *)
Definition protected_by (D : gset K) (k : K) (c : LRU.LRUCache K V) : Prop :=
  ∃ l1 l2, LRU.usage_order c = l1 ++ k :: l2 ∧ list_to_set l2 ⊆ D.

End CacheCalls.

(** ** The query loops of notebook 05_02 *)

Module Workload.
Section Workload.
Context {R : Type}.
Variable collection_query : string -> Z -> R.

(** [for query in mixed_queries: _, _ = cached_query(query, use_cache=False)];
    [n_results] takes its default, 10. *)
Fixpoint run_without_cache (mixed_queries : list string)
    (w : CachedQuery.world) : result CachedQuery.world :=
  match mixed_queries with
  | [] => Ok w
  | query :: rest =>
      match CachedQuery.cached_query collection_query query 10 false w with
      | Ok (_, w') => run_without_cache rest w'
      | Raise e => Raise e
      end
  end.

(** The loop that counts hits:
    [_, is_hit = cached_query(query, use_cache=True); if is_hit: hits += 1]. *)
Fixpoint count_hits (mixed_queries : list string) (hits : nat)
    (w : CachedQuery.world) : result (nat * CachedQuery.world) :=
  match mixed_queries with
  | [] => Ok (hits, w)
  | query :: rest =>
      match CachedQuery.cached_query collection_query query 10 true w with
      | Ok ((_, is_hit), w') =>
          count_hits rest (if is_hit then Datatypes.S hits else hits) w'
      | Raise e => Raise e
      end
  end.

(** [query_cache.clear(); hits = 0] and then the counting loop. *)
Definition run_with_cache (mixed_queries : list string)
    (w : CachedQuery.world) : result (nat * CachedQuery.world) :=
  count_hits mixed_queries 0
    (CachedQuery.mkWorld (LRU.clear (CachedQuery.query_cache w))
                         (CachedQuery.store_calls w)).

(** Every entry filed under the key of a query holds the store's answer
    to that query. *)
Definition coherent (w : CachedQuery.world) : Prop :=
  ∀ q n v,
    LRU.cache (CachedQuery.query_cache w) !! CachedQuery.cache_key q n = Some v →
    v = collection_query q n.

End Workload.
End Workload.

(** ** Vocabulary for fused scores *)

Section FusedScores.
Context {S : Type} `{Number S}.

(** The raw score a list gives to document [d]: that of its last node
    with this id, if any. *)
Definition last_score (d : string) (l : list (NodeWithScore S)) : option S :=
  fold_left (fun acc n =>
               if String.eqb (node_id (node n)) d then Some (score n) else acc)
            l None.

(** The weighted scores that the named lists contribute to document [d],
    in the order of the lists. *)
Definition contributions (weights : Dict.t S)
    (named : list (string * list (NodeWithScore S))) (d : string) : list S :=
  flat_map (fun nl =>
              match last_score d (snd nl) with
              | Some s => [num_mul s (weight_of weights (fst nl))]
              | None => []
              end)
           named.

(** The [scores] dictionary of an entry of [all_results], if there is one. *)
Definition scores_of (e : option (TextNode * Dict.t S)) : Dict.t S :=
  match e with
  | Some (_, scores) => scores
  | None => []
  end.

(** A node with its score weighted and summed from 0, as fusion does for a
    document met once. *)
Definition rescale (weight : S) (n : NodeWithScore S) : NodeWithScore S :=
  mkNodeWithScore (node n) (num_add num_zero (num_mul (score n) weight)).

End FusedScores.

(** ** Vocabulary for the calls of a pipeline *)

Section PipelineCalls.
Context {S : Type}.

(** The base retriever that [build] selects when a retriever is enabled:
    the fusion of both when both are enabled and [use_hybrid] is set,
    otherwise BM25 when enabled (the first key of the dictionary),
    otherwise the vector retriever. *)
Definition chosen_base (c : Config S) (nodes : list TextNode) : Retriever S :=
  if use_bm25 c then
    if use_hybrid c && use_vector c then
      WeightedFusionRetriever
        [("bm25"%string, BM25Retriever nodes (top_k c));
         ("vector"%string, VectorIndexRetriever nodes (top_k c))]
        [("vector"%string, vector_weight c); ("bm25"%string, bm25_weight c)]
    else BM25Retriever nodes (top_k c)
  else VectorIndexRetriever nodes (top_k c).

(** The retriever calls that a pipeline built from [c] makes for one
    query: BM25 when enabled, followed by the vector index when both are
    enabled and fused; the vector index alone when BM25 is disabled. *)
Definition retriever_calls (c : Config S) (query : string) : list event :=
  if use_bm25 c then
    CallBM25 query ::
      (if use_hybrid c && use_vector c then [CallVector query] else [])
  else [CallVector query].

End PipelineCalls.

(** ** Comparison of configurations (retrieval-pipeline notebook) *)

Module Comparison.

(** How a call of [test_configurations] ends: it returns, an exception
    of the pipeline leaves it, or the division of the summary raises
    [ZeroDivisionError]. *)
Inductive outcome (A : Type) : Type :=
  | Returned (a : A)
  | Raised (e : exn)
  | RaisedZeroDivision.

Arguments Returned {A} a.
Arguments Raised {A} e.
Arguments RaisedZeroDivision {A}.

Section Comparison.
Context {S : Type} `{Number S} `{Collaborators S}.

(** The defaults of [RetrievalPipeline.__init__] for the two weights
    (0.7 and 0.3 in the source), and the test [x == 0] that decides
    whether a division by [x] raises. *)
Variables default_vector_weight default_bm25_weight : S.
Variable is_zero : S -> bool.

(** [RetrievalPipeline] called with the four flags as keywords; the other
    options take their defaults ([top_k] 5, [rerank_top_k] 10). *)
Definition with_flags (bm25 vector hybrid reranking : bool) : Config S :=
  mkConfig bm25 vector hybrid reranking
           default_vector_weight default_bm25_weight 5 10.

Definition configurations : Dict.t (Config S) :=
  [("BM25 Only"%string, with_flags true false false false);
   ("Vector Only"%string, with_flags false true false false);
   ("Hybrid"%string, with_flags true true true false);
   ("Full Pipeline"%string, with_flags true true true true)].

(** The first loop: build, retrieve, record time and results. *)
Fixpoint run_all (cs : Dict.t (Config S)) (nodes : list TextNode)
    (query : string) (results : Dict.t (S * list (NodeWithScore S)))
    (w : World)
    : outcome (Dict.t (S * list (NodeWithScore S))) * World :=
  match cs with
  | [] => (Returned results, w)
  | (name, config) :: cs' =>
      match build (new_pipeline config) nodes with
      | Raise e => (Raised e, w)
      | Ok pipeline =>
          match pipeline_retrieve pipeline query w with
          | (Raise e, w') => (Raised e, w')
          | (Ok (retrieval_results, elapsed), w') =>
              run_all cs' nodes query
                (Dict.set name (elapsed, retrieval_results) results) w'
          end
      end
  end.

(** The summary loop: [relative = result["time"] / baseline_time] for
    every entry; only the possible exception matters, the quotient is
    printed. *)
Fixpoint summary (baseline_time : S)
    (results : Dict.t (S * list (NodeWithScore S))) : outcome unit :=
  match results with
  | [] => Returned tt
  | _ :: rest =>
      if is_zero baseline_time then RaisedZeroDivision
      else summary baseline_time rest
  end.

(** [test_configurations(nodes, query)]. *)
Definition test_configurations (nodes : list TextNode) (query : string)
    (w : World)
    : outcome (Dict.t (S * list (NodeWithScore S))) * World :=
  match run_all configurations nodes query [] w with
  | (Returned results, w') =>
      match Dict.get "BM25 Only" results with
      | None => (Raised KeyError, w')
      | Some (baseline_time, _) =>
          match summary baseline_time results with
          | Returned _ => (Returned results, w')
          | Raised e => (Raised e, w')
          | RaisedZeroDivision => (RaisedZeroDivision, w')
          end
      end
  | other => other
  end.

(** The time measured by the call of [retrieve] that starts at clock
    reading [t]. *)
Definition measured (t : nat) : S :=
  num_sub (time_time (t + 1)%nat) (time_time t).

End Comparison.
End Comparison.

(** ** Concrete caches and queries *)

Module Sample.

(** A store that answers with the length of the query plus the count. *)
Definition store (q : string) (n : Z) : Z :=
  Z.of_nat (String.length q) + n.

(** Capacity 2, holding "a". *)
Definition one_entry : LRU.LRUCache string Z :=
  LRU.mkLRU 2 (<["a"%string := 1]> ∅) ["a"%string].

(** Capacity 2, holding "a" then "b": full, "b" most recently used. *)
Definition two_entries : LRU.LRUCache string Z :=
  LRU.mkLRU 2 (<["b"%string := 2]> (<["a"%string := 1]> ∅))
            ["a"%string; "b"%string].

(** The calls that produce them from the empty cache. *)
Definition fill_one : list (LRU.op string Z) := [LRU.Put "a"%string 1].

Definition fill_two : list (LRU.op string Z) :=
  [LRU.Put "a"%string 1; LRU.Put "b"%string 2].

(** Calls on the single other key "c". *)
Definition calls_on_c : list (LRU.op string Z) :=
  [LRU.Put "c"%string 3; LRU.Get "c"%string; LRU.Put "c"%string 4].

Definition fresh_world : CachedQuery.world :=
  CachedQuery.initial_world (R:=Z).

Definition repeated_queries : list string :=
  ["x"%string; "y"%string; "x"%string].

End Sample.

(** * Properties of the LRU cache *)

Section LRUFacts.
Context {K V : Type} `{Countable K}.
Implicit Types (c : LRU.LRUCache K V) (k : K) (v : V) (l : list K).

Lemma list_remove_perm k l r :
  LRU.list_remove k l = Some r → l ≡ₚ k :: r.
Proof.
  revert r; induction l as [|y l IH]; intros r; simpl; [done|].
  destruct (decide (k = y)) as [->|Hne].
  - intros [= ->]. done.
  - destruct (LRU.list_remove k l) as [r'|] eqn:E; [|done].
    intros [= <-]. rewrite (IH r' eq_refl). apply Permutation_swap.
Qed.

Lemma list_remove_elem k l :
  k ∈ l → is_Some (LRU.list_remove k l).
Proof.
  induction l as [|y l IH]; simpl.
  - intros Hin. by apply elem_of_nil in Hin.
  - intros Hin. destruct (decide (k = y)); [by eexists|].
    apply elem_of_cons in Hin as [?|Hin]; [done|].
    destruct (IH Hin) as [r ->]. by eexists.
Qed.

(** With distinct entries, removal keeps the order of the others. *)
Lemma list_remove_head_other k y l r :
  LRU.list_remove k (y :: l) = Some r → k ≠ y → head r = Some y.
Proof.
  simpl. intros Hr Hne. destruct (decide (k = y)); [done|].
  destruct (LRU.list_remove k l); by inversion Hr.
Qed.

Lemma keys_agree_dom c :
  LRU.keys_agree c →
  list_to_set (LRU.usage_order c) = dom (LRU.cache c).
Proof.
  intros [_ Hk]. apply set_eq. intros k.
  rewrite elem_of_list_to_set, elem_of_dom. apply Hk.
Qed.

Lemma keys_agree_length c :
  LRU.keys_agree c →
  length (LRU.usage_order c) = size (LRU.cache c).
Proof.
  intros Hka. rewrite <- size_dom, <- (keys_agree_dom c Hka).
  symmetry. apply size_list_to_set, Hka.
Qed.

Lemma keys_agree_perm cap (m : gmap K V) l l' :
  l ≡ₚ l' →
  LRU.keys_agree (LRU.mkLRU cap m l) → LRU.keys_agree (LRU.mkLRU cap m l').
Proof.
  intros Hp [Hnd Hk]; simpl in *. split; simpl.
  - by rewrite <- Hp.
  - intros k. rewrite <- Hp. apply Hk.
Qed.

Lemma inv_init cap : 0 <= cap → LRU.inv (LRU.init (K:=K) (V:=V) cap).
Proof.
  intros Hc. split; [split|]; simpl.
  - constructor.
  - intros k. rewrite lookup_empty. split.
    + intros Hin. by apply elem_of_nil in Hin.
    + intros [? ?]. done.
  - unfold LRU.within_capacity, LRU.len. simpl.
    rewrite map_size_empty. lia.
Qed.

Lemma inv_clear c : 0 <= LRU.capacity c → LRU.inv (LRU.clear c).
Proof. intros Hc. by apply inv_init. Qed.

(** A hit moves the key to the most-recently-used end and changes
    nothing else. *)
Lemma get_hit c k v :
  LRU.keys_agree c → LRU.cache c !! k = Some v →
  ∃ r, LRU.list_remove k (LRU.usage_order c) = Some r ∧
       LRU.get k c =
         Ok (Some v, LRU.mkLRU (LRU.capacity c) (LRU.cache c) (r ++ [k])).
Proof.
  intros [Hnd Hk] Hv. unfold LRU.get. rewrite Hv.
  destruct (list_remove_elem k (LRU.usage_order c)) as [r Hr].
  { apply Hk. by eexists. }
  exists r. by rewrite Hr.
Qed.

Lemma get_miss c k :
  LRU.cache c !! k = None → LRU.get k c = Ok (None, c).
Proof. intros Hv. unfold LRU.get. by rewrite Hv. Qed.

Lemma get_inv c k :
  LRU.inv c →
  ∃ o c', LRU.get k c = Ok (o, c') ∧ LRU.inv c' ∧
          LRU.capacity c' = LRU.capacity c ∧ LRU.cache c' = LRU.cache c.
Proof.
  intros [Hka Hcap]. destruct (LRU.cache c !! k) as [v|] eqn:Hv.
  - destruct (get_hit c k v Hka Hv) as (r & Hr & ->).
    eexists _, _. split; [done|]. split; [|done]. split; [|done].
    destruct c as [cap m l]; simpl in *.
    apply (keys_agree_perm cap m l); [|done].
    rewrite (list_remove_perm _ _ _ Hr).
    rewrite (Permutation_app_comm r [k]). done.
  - rewrite (get_miss c k Hv). by eexists _, _.
Qed.

(** [put] of a key already present: value replaced, key promoted. *)
Lemma put_present c k v :
  LRU.keys_agree c → is_Some (LRU.cache c !! k) →
  ∃ r, LRU.list_remove k (LRU.usage_order c) = Some r ∧
       LRU.put k v c =
         Ok (LRU.mkLRU (LRU.capacity c) (<[k := v]> (LRU.cache c)) (r ++ [k])).
Proof.
  intros [Hnd Hk] [v0 Hv]. unfold LRU.put. rewrite Hv.
  destruct (list_remove_elem k (LRU.usage_order c)) as [r Hr].
  { apply Hk. by eexists. }
  exists r. by rewrite Hr.
Qed.

(** [put] of a new key below capacity: nothing is evicted. *)
Lemma put_room c k v :
  LRU.cache c !! k = None → LRU.len c < LRU.capacity c →
  LRU.put k v c =
    Ok (LRU.mkLRU (LRU.capacity c) (<[k := v]> (LRU.cache c))
                  (LRU.usage_order c ++ [k])).
Proof.
  intros Hv Hlt. unfold LRU.put. rewrite Hv.
  destruct (Z.leb_spec (LRU.capacity c) (LRU.len c)); [lia|done].
Qed.

(** [put] of a new key at capacity: the head of [usage_order] goes. *)
Lemma put_full c k v :
  LRU.keys_agree c → LRU.cache c !! k = None →
  1 <= LRU.capacity c <= LRU.len c →
  ∃ lru rest, LRU.usage_order c = lru :: rest ∧
    LRU.put k v c =
      Ok (LRU.mkLRU (LRU.capacity c)
                    (<[k := v]> (delete lru (LRU.cache c))) (rest ++ [k])).
Proof.
  intros Hka Hv [Hc1 Hc2]. unfold LRU.put. rewrite Hv.
  destruct (Z.leb_spec (LRU.capacity c) (LRU.len c)); [|lia].
  pose proof (keys_agree_length c Hka) as Hlen.
  unfold LRU.len in *.
  destruct (LRU.usage_order c) as [|lru rest] eqn:Hu; simpl in Hlen; [lia|].
  exists lru, rest. split; [done|].
  destruct Hka as [_ Hk]. rewrite Hu in Hk.
  destruct (proj1 (Hk lru)) as [v0 ->]; [apply elem_of_cons; by left|done].
Qed.

Lemma put_inv c k v :
  LRU.inv c → 1 <= LRU.capacity c →
  ∃ c', LRU.put k v c = Ok c' ∧ LRU.inv c' ∧
        LRU.capacity c' = LRU.capacity c.
Proof.
  intros [Hka Hcap] Hpos. unfold LRU.within_capacity in Hcap.
  destruct (LRU.cache c !! k) as [v0|] eqn:Hv.
  - destruct (put_present c k v Hka) as (r & Hr & ->); [by eexists|].
    eexists. split; [done|]. split; [|done].
    pose proof (list_remove_perm _ _ _ Hr) as Hp.
    destruct Hka as [Hnd Hk]. split; [split|]; simpl.
    + rewrite Permutation_app_comm. simpl. by rewrite <- Hp.
    + intros k0. rewrite Permutation_app_comm. simpl. rewrite <- Hp, Hk.
      destruct (decide (k0 = k)) as [->|Hne].
      * rewrite lookup_insert_eq, Hv. split; by eexists.
      * by rewrite lookup_insert_ne.
    + unfold LRU.within_capacity, LRU.len in *. simpl.
      rewrite map_size_insert_Some; [lia|by eexists].
  - destruct (Z.lt_ge_cases (LRU.len c) (LRU.capacity c)) as [Hlt|Hge].
    + rewrite (put_room c k v Hv Hlt). eexists. split; [done|].
      split; [|done]. destruct Hka as [Hnd Hk].
      assert (k ∉ LRU.usage_order c) as Hnin.
      { rewrite Hk, Hv. by intros [? ?]. }
      split; [split|]; simpl.
      * rewrite Permutation_app_comm. simpl. by constructor.
      * intros k0. rewrite Permutation_app_comm. simpl.
        rewrite elem_of_cons, Hk.
        destruct (decide (k0 = k)) as [->|Hne].
        -- rewrite lookup_insert_eq. split; [by eexists|by left].
        -- rewrite lookup_insert_ne by done. split; [|by right].
           by intros [?|?].
      * unfold LRU.within_capacity, LRU.len in *. simpl.
        rewrite map_size_insert_None by done. lia.
    + destruct (put_full c k v Hka Hv) as (lru & rest & Hu & ->); [lia|].
      eexists. split; [done|]. split; [|done].
      pose proof (keys_agree_length c Hka) as Hlen.
      destruct Hka as [Hnd Hk]. rewrite Hu in Hnd, Hk, Hlen.
      apply NoDup_cons in Hnd as [Hnin Hnd].
      assert (is_Some (LRU.cache c !! lru)) as Hlru.
      { apply Hk, elem_of_cons. by left. }
      assert (k ≠ lru) as Hne.
      { intros ->. rewrite Hv in Hlru. by destruct Hlru. }
      split; [split|]; simpl.
      * rewrite Permutation_app_comm. simpl. constructor; [|done].
        intros Hin. assert (is_Some (LRU.cache c !! k)) as [? ?]; [|congruence].
        apply Hk, elem_of_cons. by right.
      * intros k0. rewrite Permutation_app_comm. simpl. rewrite elem_of_cons.
        destruct (decide (k0 = k)) as [->|Hne0].
        -- rewrite lookup_insert_eq. split; [by eexists|by left].
        -- rewrite lookup_insert_ne by done.
           destruct (decide (k0 = lru)) as [->|Hne1].
           ++ rewrite lookup_delete_eq. split.
              ** intros [?|?]; [done|]. done.
              ** by intros [? ?].
           ++ rewrite lookup_delete_ne by done. rewrite <- Hk, elem_of_cons.
              split; [intros [?|?]; [done|by right]|].
              intros [?|?]; [done|by right].
      * unfold LRU.within_capacity, LRU.len in *. simpl.
        rewrite map_size_insert_None.
        -- rewrite map_size_delete_Some by done. simpl in Hlen. lia.
        -- rewrite lookup_delete_ne by done. done.
Qed.

Lemma step_inv (o : LRU.op K V) c :
  LRU.inv c → 1 <= LRU.capacity c →
  ∃ c', LRU.step o c = Ok c' ∧ LRU.inv c' ∧
        LRU.capacity c' = LRU.capacity c.
Proof.
  intros Hinv Hpos. destruct o as [k|k v|]; simpl.
  - destruct (get_inv c k Hinv) as (o & c' & -> & ? & ? & _). by exists c'.
  - by apply put_inv.
  - eexists. split; [done|]. split; [|done]. apply inv_clear. lia.
Qed.

Lemma run_inv (ops : list (LRU.op K V)) c :
  LRU.inv c → 1 <= LRU.capacity c →
  ∃ c', LRU.run ops c = Ok c' ∧ LRU.inv c' ∧
        LRU.capacity c' = LRU.capacity c.
Proof.
  revert c; induction ops as [|o ops IH]; intros c Hinv Hpos; simpl.
  - by exists c.
  - destruct (step_inv o c Hinv Hpos) as (c1 & -> & Hinv1 & Hcap1).
    destruct (IH c1 Hinv1) as (c' & Hrun & Hinv' & Hcap'); [lia|].
    exists c'. split; [done|]. split; [done|]. lia.
Qed.

(** C9: starting from an empty cache of positive capacity, every sequence
    of [get], [put] and [clear] runs without raising and ends in a cache
    whose [usage_order] holds each key of the dictionary exactly once and
    no other key, so that [len(usage_order)] is the size, and the size is
    at most the capacity. *)
Theorem lru_invariant (cap : Z) (ops : list (LRU.op K V)) :
  0 < cap →
  ∃ c, LRU.run ops (LRU.init cap) = Ok c ∧
       NoDup (LRU.usage_order c) ∧
       (∀ k, k ∈ LRU.usage_order c ↔ is_Some (LRU.cache c !! k)) ∧
       Z.of_nat (length (LRU.usage_order c)) = LRU.len c ∧
       LRU.len c <= LRU.capacity c ∧
       LRU.capacity c = cap.
Proof.
  intros Hpos.
  destruct (run_inv ops (LRU.init cap)) as (c & Hrun & [Hka Hcap] & Hc).
  { apply inv_init. lia. }
  { simpl. lia. }
  exists c. split; [done|]. destruct Hka as [Hnd Hk].
  split; [done|]. split; [done|]. split; [|done].
  unfold LRU.len. f_equal. by apply keys_agree_length.
Qed.

End LRUFacts.

Section LRUEviction.
Context {K V : Type} `{Countable K}.
Implicit Types (c : LRU.LRUCache K V) (k : K) (v : V) (l : list K).

(** Putting fresh, distinct keys while there is room appends them to
    [usage_order] in the order of the calls. *)
Lemma puts_fresh (kvs : list (K * V)) c :
  LRU.inv c → 1 <= LRU.capacity c →
  NoDup kvs.*1 → (∀ k, k ∈ kvs.*1 → LRU.cache c !! k = None) →
  LRU.len c + Z.of_nat (length kvs) <= LRU.capacity c →
  ∃ c', LRU.puts kvs c = Ok c' ∧ LRU.inv c' ∧
        LRU.capacity c' = LRU.capacity c ∧
        LRU.usage_order c' = LRU.usage_order c ++ kvs.*1 ∧
        LRU.len c' = LRU.len c + Z.of_nat (length kvs).
Proof.
  revert c. induction kvs as [|[k v] kvs IH]; intros c Hinv Hpos Hnd Hnew Hroom.
  - exists c. simpl. rewrite app_nil_r.
    split; [done|]. split; [done|]. split; [done|]. split; [done|lia].
  - simpl in *. apply NoDup_cons in Hnd as [Hnin Hnd].
    assert (LRU.cache c !! k = None) as Hk.
    { apply Hnew, elem_of_cons. by left. }
    destruct (put_inv c k v Hinv Hpos) as (c1 & Hput & Hinv1 & Hcap1).
    unfold LRU.puts. simpl. rewrite Hput.
    rewrite put_room in Hput by (done || lia). injection Hput as <-.
    simpl in *.
    destruct (IH _ Hinv1) as (c' & Hrun & Hinv' & Hcap' & Hu' & Hlen');
      simpl; try done.
    + intros k0 Hin. rewrite lookup_insert_ne; [|by intros ->].
      apply Hnew, elem_of_cons. by right.
    + unfold LRU.len in *. simpl. rewrite map_size_insert_None by done. lia.
    + exists c'. split; [done|]. split; [done|]. split; [done|].
      simpl in *. split.
      * rewrite Hu', <- app_assoc. done.
      * rewrite Hlen'. unfold LRU.len. simpl.
        rewrite map_size_insert_None by done. lia.
Qed.

Lemma dom_after_eviction c k v lru :
  dom (<[k := v]> (delete lru (LRU.cache c)))
  = {[k]} ∪ dom (LRU.cache c) ∖ {[lru]}.
Proof. by rewrite dom_insert_L, dom_delete_L. Qed.

(** C5, as amended: with capacity [N >= 1], after [N] puts of distinct
    keys the put of a further distinct key evicts the key put first and
    no other; a [get] of a stored key makes it the most recently used,
    and when [N >= 2] the next put evicts another key, not that one. *)
Theorem lru_evicts_least_recent (N : Z) (kvs : list (K * V)) k' v' :
  1 <= N → Z.of_nat (length kvs) = N → NoDup kvs.*1 → k' ∉ kvs.*1 →
  ∃ c lru,
    LRU.puts kvs (LRU.init N) = Ok c ∧
    head kvs.*1 = Some lru ∧
    dom (LRU.cache c) = list_to_set kvs.*1 ∧
    (∃ c', LRU.put k' v' c = Ok c' ∧
           dom (LRU.cache c') = {[k']} ∪ dom (LRU.cache c) ∖ {[lru]}) ∧
    ∀ k, k ∈ kvs.*1 →
      ∃ v c1, LRU.get k c = Ok (Some v, c1) ∧
              LRU.cache c1 = LRU.cache c ∧
              last (LRU.usage_order c1) = Some k ∧
              (2 <= N →
               ∃ victim c2,
                 head (LRU.usage_order c1) = Some victim ∧ victim ≠ k ∧
                 LRU.put k' v' c1 = Ok c2 ∧
                 k ∈ dom (LRU.cache c2) ∧
                 dom (LRU.cache c2)
                 = {[k']} ∪ dom (LRU.cache c) ∖ {[victim]}).
Proof.
  intros HN Hlen Hnd Hnew.
  destruct (puts_fresh kvs (LRU.init N)) as (c & Hputs & Hinv & Hcap & Hu & Hl).
  { apply inv_init. lia. }
  { simpl. lia. }
  { done. }
  { intros k _. simpl. apply lookup_empty. }
  { unfold LRU.len. simpl. rewrite map_size_empty. lia. }
  simpl in Hcap, Hu.
  assert (LRU.len c = N) as Hfull.
  { rewrite Hl. unfold LRU.len. simpl. rewrite map_size_empty. lia. }
  destruct Hinv as [Hka Hwc].
  pose proof (keys_agree_dom c Hka) as Hdom. rewrite Hu in Hdom.
  assert (LRU.cache c !! k' = None) as Hk'.
  { apply not_elem_of_dom. rewrite <- Hdom, elem_of_list_to_set. done. }
  destruct (put_full c k' v' Hka Hk') as (lru & rest & Hur & Hput); [lia|].
  exists c, lru. split; [done|]. split; [by rewrite <- Hu, Hur|].
  split; [done|]. split.
  { eexists. split; [done|]. simpl. apply dom_after_eviction. }
  intros k Hin.
  assert (is_Some (LRU.cache c !! k)) as [v Hv].
  { apply elem_of_dom. rewrite <- Hdom, elem_of_list_to_set. done. }
  destruct (get_hit c k v Hka Hv) as (r & Hr & Hget).
  eexists v, _. split; [done|]. simpl. split; [done|].
  split; [apply last_snoc|].
  intros HN2.
  pose proof (list_remove_perm _ _ _ Hr) as Hp.
  assert (NoDup (k :: r)) as Hndr.
  { rewrite <- Hp. apply Hka. }
  apply NoDup_cons in Hndr as [Hkr Hndr].
  assert (length (LRU.usage_order c) = Datatypes.S (length r)) as Hlr.
  { by rewrite Hp. }
  rewrite Hu, length_fmap in Hlr.
  destruct r as [|victim r']; simpl in Hlr; [lia|].
  set (c1 := LRU.mkLRU (LRU.capacity c) (LRU.cache c) ((victim :: r') ++ [k])).
  assert (LRU.keys_agree c1) as Hka1.
  { apply (keys_agree_perm _ _ (LRU.usage_order c)); [|by destruct c].
    rewrite Hp. rewrite (Permutation_app_comm _ [k]). done. }
  destruct (put_full c1 k' v' Hka1 Hk') as (lru1 & rest1 & Hur1 & Hput1).
  { unfold LRU.len in *. simpl. lia. }
  simpl in Hur1. injection Hur1 as <- <-.
  exists victim. eexists. split; [done|].
  assert (victim ≠ k) as Hvk.
  { intros ->. apply Hkr, elem_of_cons. by left. }
  split; [done|]. split; [exact Hput1|]. simpl.
  rewrite dom_after_eviction. simpl. split; [|done].
  apply elem_of_union_r, elem_of_difference. split.
  - apply elem_of_dom. by eexists.
  - rewrite elem_of_singleton. congruence.
Qed.

End LRUEviction.

(** A cache of capacity 2 filled with "a" then "b": the put of "c" evicts
    "a"; after a [get] of "a" it evicts "b" instead. *)
Lemma lru_evicts_least_recent_witness :
  1 <= 2 ∧
  ∃ (c : LRU.LRUCache string Z) lru,
    LRU.puts [("a"%string, 1); ("b"%string, 2)] (LRU.init 2) = Ok c ∧
    head [("a"%string, 1); ("b"%string, 2)].*1 = Some lru ∧
    dom (LRU.cache c) = list_to_set [("a"%string, 1); ("b"%string, 2)].*1 ∧
    (∃ c', LRU.put "c"%string 3 c = Ok c' ∧
           dom (LRU.cache c') = {["c"%string]} ∪ dom (LRU.cache c) ∖ {[lru]}) ∧
    ∀ k, k ∈ [("a"%string, 1); ("b"%string, 2)].*1 →
      ∃ v c1, LRU.get k c = Ok (Some v, c1) ∧
              LRU.cache c1 = LRU.cache c ∧
              last (LRU.usage_order c1) = Some k ∧
              (2 <= 2 →
               ∃ victim c2,
                 head (LRU.usage_order c1) = Some victim ∧ victim ≠ k ∧
                 LRU.put "c"%string 3 c1 = Ok c2 ∧
                 k ∈ dom (LRU.cache c2) ∧
                 dom (LRU.cache c2)
                 = {["c"%string]} ∪ dom (LRU.cache c) ∖ {[victim]}).
Proof.
  split; [lia|].
  apply (lru_evicts_least_recent 2 [("a"%string, 1); ("b"%string, 2)]
           "c"%string 3).
  - lia.
  - reflexivity.
  - simpl. apply NoDup_cons. split.
    + rewrite elem_of_cons. intros [?|Hin]; [done|].
      by apply elem_of_nil in Hin.
    + apply NoDup_singleton.
  - simpl. rewrite !elem_of_cons. intros [?|[?|Hin]]; [done|done|].
    by apply elem_of_nil in Hin.
Defined.

(** With capacity 1 the key just read is still the next victim, and with
    capacity 0 the first put raises [IndexError]. *)
Lemma lru_get_does_not_protect_at_capacity_1 :
  (∃ c1 c2 c3 : LRU.LRUCache string Z,
     LRU.put "a"%string 1 (LRU.init 1) = Ok c1 ∧
     LRU.get "a"%string c1 = Ok (Some 1, c2) ∧
     LRU.put "b"%string 2 c2 = Ok c3 ∧
     LRU.cache c3 !! "a"%string = None) ∧
  LRU.put "a"%string 1 (LRU.init (K:=string) (V:=Z) 0) = Raise IndexError.
Proof.
  split; [|reflexivity].
  eexists _, _, _. split; [reflexivity|]. split; [reflexivity|].
  split; [reflexivity|]. reflexivity.
Qed.

Lemma lru_invariant_witness :
  0 < 2 ∧
  ∃ c : LRU.LRUCache string Z,
    LRU.run [LRU.Put "a"%string 1; LRU.Get "a"%string; LRU.Put "b"%string 2;
             LRU.Put "c"%string 3; LRU.Get "z"%string; LRU.Put "b"%string 4]
            (LRU.init 2) = Ok c ∧
    NoDup (LRU.usage_order c) ∧
    (∀ k, k ∈ LRU.usage_order c ↔ is_Some (LRU.cache c !! k)) ∧
    Z.of_nat (length (LRU.usage_order c)) = LRU.len c ∧
    LRU.len c <= LRU.capacity c ∧
    LRU.capacity c = 2.
Proof.
  split; [lia|]. apply lru_invariant. lia.
Defined.

(** * Properties of the cache key *)

Section CacheKey.
Import CachedQuery.
Local Open Scope string_scope.

Lemma occurs_append a s t :
  occurs a (s +:+ t) = occurs a s || occurs a t.
Proof.
  induction s as [|b s IH]; simpl; [done|].
  rewrite IH. by rewrite orb_assoc.
Qed.

Lemma uint_digits_no_colon d :
  occurs ":" (NilEmpty.string_of_uint d) = false.
Proof. induction d; simpl; done. Qed.

Lemma str_int_no_colon n : occurs ":" (str_int n) = false.
Proof.
  unfold str_int, NilZero.string_of_int, NilZero.string_of_uint.
  destruct (Z.to_int n) as [d|d]; destruct d; simpl;
    try done; apply uint_digits_no_colon.
Qed.

Lemma to_int_not_nil n :
  Z.to_int n ≠ Decimal.Pos Decimal.Nil ∧ Z.to_int n ≠ Decimal.Neg Decimal.Nil.
Proof.
  destruct n as [|p|p]; simpl; split; try done;
    intros [= Hp]; by apply (DecimalPos.Unsigned.to_uint_nonnil p).
Qed.

Lemma str_int_inj n m : str_int n = str_int m → n = m.
Proof.
  unfold str_int. intros Heq.
  apply DecimalZ.to_int_inj.
  destruct (to_int_not_nil n) as [Hn1 Hn2].
  destruct (to_int_not_nil m) as [Hm1 Hm2].
  pose proof (NilZero.isi _ Hn1 Hn2) as Hn.
  pose proof (NilZero.isi _ Hm1 Hm2) as Hm.
  rewrite Heq in Hn. congruence.
Qed.

(** A key splits at its last colon. *)
Lemma split_at_last_colon q1 q2 d1 d2 :
  occurs ":" d1 = false → occurs ":" d2 = false →
  q1 +:+ ":" +:+ d1 = q2 +:+ ":" +:+ d2 → q1 = q2 ∧ d1 = d2.
Proof.
  intros Hd1 Hd2. revert q2.
  induction q1 as [|c1 q1 IH]; intros [|c2 q2]; intros Heq; cbn in Heq.
- injection Heq as Hd. by split.
- injection Heq as _ Hd. change ("" +:+ d1) with d1 in Hd.
  rewrite Hd, occurs_append in Hd1. simpl in Hd1.
  by rewrite orb_true_r in Hd1.
- injection Heq as _ Hd. change ("" +:+ d2) with d2 in Hd.
  rewrite <- Hd, occurs_append in Hd2. simpl in Hd2.
  by rewrite orb_true_r in Hd2.
- injection Heq as Hc Heq. destruct (IH q2 Heq) as [-> ->]. by rewrite Hc.
Qed.

Lemma cache_key_inj q1 n1 q2 n2 :
  cache_key q1 n1 = cache_key q2 n2 → q1 = q2 ∧ n1 = n2.
Proof.
  unfold cache_key. intros Heq.
  apply split_at_last_colon in Heq as [-> Hn];
    auto using str_int_no_colon.
  split; [done|]. by apply str_int_inj.
Qed.


End CacheKey.

(** * Properties of [cached_query] *)

Section CachedQueryFacts.
Import CachedQuery.
Context {R : Type} (collection_query : string → Z → R).

(** With the cache in use, a call leaves the key's entry in the cache, so
    the same call made again is a hit: it returns the same result and
    does not reach the store. *)
Lemma cached_query_second_call_hits query_text n_results (w : world) :
  LRU.inv (query_cache w) → 1 <= LRU.capacity (query_cache w) →
  ∃ r hit w1 w2,
    cached_query collection_query query_text n_results true w
      = Ok ((r, hit), w1) ∧
    cached_query collection_query query_text n_results true w1
      = Ok ((r, true), w2) ∧
    store_calls w2 = store_calls w1.
Proof.
  intros Hinv Hpos. destruct w as [c calls]; simpl in *.
  set (key := cache_key query_text n_results).
  unfold cached_query; simpl. fold key.
  destruct (LRU.cache c !! key) as [v|] eqn:Hv.
  - destruct (get_hit c key v (proj1 Hinv) Hv) as (r & Hr & Hget).
    destruct (get_inv c key Hinv) as (o & c1 & Hget1 & Hinv1 & _ & Hc1).
    assert (LRU.cache c1 !! key = Some v) as Hv1 by by rewrite Hc1.
    destruct (get_hit c1 key v (proj1 Hinv1) Hv1) as (r' & Hr' & Hget').
    rewrite Hget1. rewrite Hget in Hget1. injection Hget1 as <- Hc.
    eexists v, true, _, _. split; [done|]. simpl. by rewrite Hget'.
  - rewrite (get_miss c key Hv). unfold do_query. fold key.
    destruct (put_inv c key (collection_query query_text n_results) Hinv Hpos)
      as (c1 & Hput & Hinv1 & Hcap1).
    rewrite Hput.
    assert (LRU.cache c1 !! key = Some (collection_query query_text n_results))
      as Hv1.
    { unfold LRU.put in Hput. rewrite Hv in Hput.
      destruct (LRU.capacity c <=? LRU.len c).
      - destruct (LRU.usage_order c) as [|lru rest]; [done|].
        destruct (LRU.cache c !! lru); [|done].
        injection Hput as <-. simpl. apply lookup_insert_eq.
      - injection Hput as <-. simpl. apply lookup_insert_eq. }
    destruct (get_hit c1 key _ (proj1 Hinv1) Hv1) as (r & Hr & Hget).
    eexists _, false, _, _. split; [done|]. simpl. by rewrite Hget.
Qed.

End CachedQueryFacts.

(** From the initial, empty cache of capacity 50: a miss that queries the
    store once, then a hit that does not. *)
Lemma cached_query_miss_then_hit {R : Type} (collection_query : string → Z → R)
    (query_text : string) (n_results : Z) :
  ∃ w1 w2,
    CachedQuery.cached_query collection_query query_text n_results true
      CachedQuery.initial_world
      = Ok ((collection_query query_text n_results, false), w1) ∧
    CachedQuery.cached_query collection_query query_text n_results true w1
      = Ok ((collection_query query_text n_results, true), w2) ∧
    CachedQuery.store_calls w2 = [(query_text, n_results)].
Proof.
  assert (LRU.inv (LRU.init (K:=string) (V:=R) 50)) as Hinv
    by (apply inv_init; lia).
  set (key := CachedQuery.cache_key query_text n_results).
  set (r := collection_query query_text n_results).
  assert (LRU.put key r (LRU.init 50)
          = Ok (LRU.mkLRU 50 (<[key := r]> ∅) [key])) as Hput.
  { rewrite put_room; [done|apply lookup_empty|].
    unfold LRU.len. simpl. rewrite map_size_empty. lia. }
  destruct (put_inv (LRU.init 50) key r Hinv) as (c1 & Hput1 & Hinv1 & _);
    [simpl; lia|].
  rewrite Hput in Hput1. injection Hput1 as <-.
  destruct (get_hit (LRU.mkLRU 50 (<[key := r]> ∅) [key]) key r (proj1 Hinv1))
    as (l & Hl & Hget); [apply lookup_insert_eq|].
  eexists _, _. unfold CachedQuery.cached_query, CachedQuery.do_query.
  fold key r. simpl. rewrite get_miss by apply lookup_empty.
  rewrite Hput. split; [done|]. simpl. rewrite Hget. done.
Qed.

(** * Properties of the descending stable sort *)

Section SortFacts.
Context {S : Type} `{Number S}.
Implicit Types (x y : NodeWithScore S) (l : list (NodeWithScore S)).

Lemma insert_desc_perm x l : insert_desc x l ≡ₚ x :: l.
Proof.
  induction l as [|y l IH]; simpl; [done|].
  destruct (num_lt (score x) (score y)); [|done].
  rewrite IH. apply Permutation_swap.
Qed.

Lemma sorted_desc_perm l : sorted_desc l ≡ₚ l.
Proof.
  induction l as [|x l IH]; simpl; [done|].
  by rewrite insert_desc_perm, IH.
Qed.

Lemma sorted_desc_length l : length (sorted_desc l) = length l.
Proof. by rewrite sorted_desc_perm. Qed.

Lemma sorted_desc_nodes l x :
  x ∈ sorted_desc l → x ∈ l.
Proof. by rewrite sorted_desc_perm. Qed.

Context `{!StrictWeak S}.

Lemma insert_desc_sorted x l :
  StronglySorted not_below l → StronglySorted not_below (insert_desc x l).
Proof.
  induction 1 as [|y l Hl IH Hy]; simpl.
  - repeat constructor.
  - destruct (num_lt (score x) (score y)) eqn:Hxy.
    + constructor; [done|].
      rewrite insert_desc_perm. constructor; [|done].
      by apply lt_asym.
    + constructor; [by constructor|].
      constructor; [done|].
      eapply Forall_impl; [exact Hy|]. intros z Hz.
      by apply (lt_negtrans _ (score y)).
Qed.

Lemma sorted_desc_sorted l : StronglySorted not_below (sorted_desc l).
Proof.
  induction l as [|x l IH]; simpl; [constructor|].
  by apply insert_desc_sorted.
Qed.

Lemma tied_not_lt s x y :
  tied s x = true → tied s y = true → num_lt (score x) (score y) = false.
Proof.
  unfold tied. rewrite !andb_true_iff, !negb_true_iff.
  intros [_ Hxs] [Hsy _]. by apply (lt_negtrans _ s).
Qed.

Lemma insert_desc_stable s x l :
  List.filter (tied s) (insert_desc x l) = List.filter (tied s) (x :: l).
Proof.
  induction l as [|y l IH]; [done|].
  simpl insert_desc. destruct (num_lt (score x) (score y)) eqn:Hxy; [|done].
  simpl in *. rewrite IH.
  destruct (tied s x) eqn:Hx, (tied s y) eqn:Hy; try done.
  by rewrite (tied_not_lt s x y) in Hxy.
Qed.

(** Nodes of equal score leave the sort in the order in which they
    entered it. *)
Lemma sorted_desc_stable s l :
  List.filter (tied s) (sorted_desc l) = List.filter (tied s) l.
Proof.
  induction l as [|x l IH]; [done|].
  simpl sorted_desc. rewrite insert_desc_stable. simpl. by rewrite IH.
Qed.

End SortFacts.

#[export] Instance Z_StrictWeak : StrictWeak Z.
Proof.
  split; simpl; intros *; rewrite ?Z.ltb_lt, ?Z.ltb_ge; lia.
Qed.

(** * Properties of weighted fusion *)

Section DictFacts.
Context {V : Type}.
Implicit Types (d : Dict.t V) (k : string) (v : V).

Lemma mem_elem_of k (seen : list string) : mem k seen = true ↔ k ∈ seen.
Proof.
  unfold mem. rewrite existsb_exists, list_elem_of_In. split.
  - intros (j & Hin & Heq). apply String.eqb_eq in Heq. by subst.
  - intros Hin. exists k. split; [done|]. apply String.eqb_refl.
Qed.

Lemma dict_get_mem k d :
  Dict.get k d = None ↔ mem k (Dict.keys d) = false.
Proof.
  induction d as [|[k' v'] d IH]; simpl; [done|].
  destruct (String.eqb k k'); simpl; [done|apply IH].
Qed.

Lemma dict_get_elem k d v :
  Dict.get k d = Some v → (k, v) ∈ d.
Proof.
  induction d as [|[k' v'] d IH]; simpl; [done|].
  destruct (String.eqb_spec k k') as [->|Hne].
  - intros [= ->]. apply elem_of_cons. by left.
  - intros Hg. apply elem_of_cons. right. by apply IH.
Qed.

(** Assignment keeps the place of a known key and appends a new one. *)
Lemma dict_set_keys k v d :
  Dict.keys (Dict.set k v d) = push (Dict.keys d) k.
Proof.
  unfold push. induction d as [|[k' v'] d IH]; simpl; [done|].
  destruct (String.eqb_spec k k') as [->|Hne]; simpl; [done|].
  rewrite IH. by destruct (mem k (Dict.keys d)).
Qed.

Lemma dict_set_Forall (P : string * V → Prop) k v d :
  Forall P d → P (k, v) → Forall P (Dict.set k v d).
Proof.
  intros Hd Hkv. induction Hd as [|[k' v'] d Hx Hd IH]; simpl.
  - by constructor.
  - destruct (String.eqb k k'); by constructor.
Qed.

End DictFacts.

Section PushFacts.
Implicit Types (seen ids : list string).

Lemma push_NoDup seen i : NoDup seen → NoDup (push seen i).
Proof.
  intros Hnd. unfold push. destruct (mem i seen) eqn:Hm; [done|].
  rewrite Permutation_app_comm. simpl. constructor; [|done].
  rewrite <- mem_elem_of. congruence.
Qed.

Lemma push_elem_of seen i x : x ∈ push seen i ↔ x ∈ seen ∨ x = i.
Proof.
  unfold push. destruct (mem i seen) eqn:Hm.
  - apply mem_elem_of in Hm. split; [by left|]. by intros [?| ->].
  - rewrite elem_of_app, list_elem_of_singleton. done.
Qed.

Lemma fold_push_NoDup ids seen :
  NoDup seen → NoDup (fold_left push ids seen).
Proof.
  revert seen. induction ids as [|i ids IH]; intros seen Hnd; simpl; [done|].
  by apply IH, push_NoDup.
Qed.

Lemma fold_push_elem_of ids seen x :
  x ∈ fold_left push ids seen ↔ x ∈ seen ∨ x ∈ ids.
Proof.
  revert seen. induction ids as [|i ids IH]; intros seen; simpl.
  - rewrite elem_of_nil. tauto.
  - rewrite IH, push_elem_of, elem_of_cons. tauto.
Qed.

Lemma first_seen_NoDup ids : NoDup (first_seen ids).
Proof. apply fold_push_NoDup. constructor. Qed.

Lemma first_seen_elem_of ids x : x ∈ first_seen ids ↔ x ∈ ids.
Proof.
  unfold first_seen. rewrite fold_push_elem_of, elem_of_nil. tauto.
Qed.

(** As many entries as there are distinct ids. *)
Lemma first_seen_length ids :
  length (first_seen ids) = size (list_to_set ids : gset string).
Proof.
  rewrite <- (size_list_to_set (C:=gset string) (first_seen ids))
    by apply first_seen_NoDup.
  f_equal. apply set_eq. intros x.
  by rewrite !elem_of_list_to_set, first_seen_elem_of.
Qed.

End PushFacts.

Section FusionFacts.
Context {S : Type} `{Number S} `{Collaborators S}.
Implicit Types (all : Dict.t (TextNode * Dict.t S)).

Lemma add_result_keys name w all n :
  Dict.keys (add_result name w all n)
  = push (Dict.keys all) (node_id (node n)).
Proof.
  unfold add_result.
  destruct (Dict.get _ all) as [[nd scores]|]; apply dict_set_keys.
Qed.

Lemma add_result_well_keyed name w all n :
  well_keyed all → well_keyed (add_result name w all n).
Proof.
  intros Hwk. unfold add_result.
  destruct (Dict.get _ all) as [[nd scores]|] eqn:Hg;
    apply dict_set_Forall; try done.
  apply dict_get_elem in Hg. unfold well_keyed in Hwk.
  rewrite Forall_forall in Hwk. apply (Hwk _ Hg).
Qed.

Lemma accumulate_keys ws all (named : string * list (NodeWithScore S)) :
  Dict.keys (accumulate ws all named)
  = fold_left push (ids_of (snd named)) (Dict.keys all).
Proof.
  unfold accumulate. destruct named as [name l]; simpl.
  revert all. induction l as [|n l IH]; intros all; simpl; [done|].
  by rewrite IH, add_result_keys.
Qed.

Lemma accumulate_well_keyed ws all named :
  well_keyed all → well_keyed (accumulate ws all named).
Proof.
  unfold accumulate. destruct named as [name l]; simpl.
  revert all. induction l as [|n l IH]; intros all Hwk; simpl; [done|].
  by apply IH, add_result_well_keyed.
Qed.

Lemma fold_accumulate_keys ws named all :
  Dict.keys (fold_left (accumulate ws) named all)
  = fold_left push (candidate_ids named) (Dict.keys all).
Proof.
  revert all. induction named as [|nl named IH]; intros all; [done|].
  simpl. unfold candidate_ids in *. simpl.
  by rewrite fold_left_app, IH, accumulate_keys.
Qed.

Lemma fold_accumulate_well_keyed ws named all :
  well_keyed all → well_keyed (fold_left (accumulate ws) named all).
Proof.
  revert all. induction named as [|nl named IH]; intros all Hwk; [done|].
  simpl. by apply IH, accumulate_well_keyed.
Qed.

Lemma final_results_ids all :
  well_keyed all → ids_of (final_results all) = Dict.keys all.
Proof.
  unfold ids_of, final_results, Dict.keys. rewrite map_map. simpl.
  induction 1 as [|item all Hi Hall IH]; simpl; [done|].
  by rewrite Hi, IH.
Qed.

(** The list that enters the sort has one node per distinct id, in order
    of first occurrence. *)
Lemma unsorted_ids ws named :
  ids_of (final_results (fold_left (accumulate ws) named []))
  = first_seen (candidate_ids named).
Proof.
  rewrite final_results_ids.
  - apply fold_accumulate_keys.
  - apply fold_accumulate_well_keyed. constructor.
Qed.

(** The retriever computes [fuse] of the lists its retrievers return. *)
Lemma fusion_retrieve rs ws query named :
  answers query rs named →
  ∃ evs, retrieve (WeightedFusionRetriever rs ws) query
         = (Ok (fuse named ws), evs).
Proof.
  intros Hans. unfold fuse. cbn [retrieve].
  match goal with |- context [bind (?f rs [])] => set (loop := f) end.
  assert (∀ all, ∃ evs,
            loop rs all = (Ok (fold_left (accumulate ws) named all), evs))
    as Hloop.
  { induction Hans as [|[name r] [name' l] rs named [Hn [evs Hr]] Hans IH];
      intros all.
    - eexists. reflexivity.
    - simpl in Hn, Hr. subst name'.
      change (loop ((name, r) :: rs) all)
        with (bind (retrieve r query)
                   (fun results => loop rs (accumulate ws all (name, results)))).
      rewrite Hr. unfold bind.
      destruct (IH (accumulate ws all (name, l))) as [evs' ->].
      eexists. reflexivity. }
  destruct (Hloop []) as [evs ->]. eexists. reflexivity.
Qed.

End FusionFacts.

Section FusionRanking.
Context {S : Type} `{Number S} `{Collaborators S} `{!StrictWeak S}.

(** C1, as amended: whatever lists the named retrievers return and
    whatever the weights, the fusion retriever returns one node per
    distinct document id, sorted by fused score in descending order; nodes
    of equal fused score keep the order in which their documents were
    first met (retriever by retriever, each list from its top), and the
    list is not truncated: its length is the number of distinct ids. *)
Theorem fusion_sorted_stable_untruncated
    (rs : Dict.t (Retriever S)) (ws : Dict.t S) (query : string)
    (named : list (string * list (NodeWithScore S))) :
  answers query rs named →
  ∃ evs unsorted,
    retrieve (WeightedFusionRetriever rs ws) query
      = (Ok (sorted_desc unsorted), evs) ∧
    ids_of unsorted = first_seen (candidate_ids named) ∧
    StronglySorted not_below (sorted_desc unsorted) ∧
    (∀ s, List.filter (tied s) (sorted_desc unsorted)
          = List.filter (tied s) unsorted) ∧
    length (sorted_desc unsorted)
      = size (list_to_set (candidate_ids named) : gset string).
Proof.
  intros Hans. destruct (fusion_retrieve rs ws query named Hans) as [evs Hr].
  exists evs, (final_results (fold_left (accumulate ws) named [])).
  split; [exact Hr|]. split; [apply unsorted_ids|].
  split; [apply sorted_desc_sorted|]. split; [intros s; apply sorted_desc_stable|].
  rewrite sorted_desc_length, <- first_seen_length, <- (unsorted_ids ws).
  unfold ids_of. by rewrite length_map.
Qed.

End FusionRanking.

(** * Properties of reranking *)

Section SliceFacts.
Context {A : Type}.
Implicit Types (l : list A) (k : Z).

Lemma slice_to_elem_of l k x : x ∈ slice_to l k → x ∈ l.
Proof.
  unfold slice_to. destruct (0 <=? k); apply subseteq_take.
Qed.

Lemma slice_to_length l k :
  Z.of_nat (length (slice_to l k)) <= Z.of_nat (length l).
Proof.
  unfold slice_to. destruct (0 <=? k); rewrite length_take; lia.
Qed.

Lemma slice_to_length_bound l k :
  0 <= k → Z.of_nat (length (slice_to l k)) <= k.
Proof.
  intros Hk. unfold slice_to.
  destruct (Z.leb_spec 0 k); [|lia]. rewrite length_take. lia.
Qed.

(** The slices that are empty. *)
Lemma slice_to_nil l k :
  k = 0 ∨ l = [] ∨ k + Z.of_nat (length l) <= 0 → slice_to l k = [].
Proof.
  unfold slice_to. intros [->|[->|Hk]].
  - done.
  - destruct (0 <=? k); apply take_nil.
  - destruct (Z.leb_spec 0 k).
    + assert (l = []) as -> by (apply length_zero_iff_nil; lia).
      apply take_nil.
    + replace (Z.to_nat (Z.of_nat (length l) + k)) with 0%nat by lia. done.
Qed.

End SliceFacts.

Section RerankFacts.
Context {S : Type} `{Number S} `{Collaborators S}.
Implicit Types (cands out : list (NodeWithScore S)).

Lemma rerank_empty query cands fetch_k top_k :
  slice_to cands fetch_k = [] →
  rerank query cands fetch_k top_k = (Ok [], []).
Proof. intros Hs. unfold rerank. by rewrite Hs. Qed.

(** With candidates to score, the outcome is decided by the model. *)
Lemma rerank_nonempty query cands fetch_k top_k :
  slice_to cands fetch_k ≠ [] →
  rerank query cands fetch_k top_k =
    match predict (model_input query cands fetch_k) with
    | None =>
        (Raise ModelError, [CallPredict (model_input query cands fetch_k)])
    | Some scores =>
        let sorted :=
          sorted_desc (zip_with (fun n s => mkNodeWithScore (node n) s)
                                (slice_to cands fetch_k) scores) in
        (Ok (if top_k =? 0 then sorted else slice_to sorted top_k),
         [CallPredict (model_input query cands fetch_k)])
    end.
Proof.
  intros Hs. unfold rerank, model_input.
  destruct (slice_to cands fetch_k) as [|n l] eqn:E; [done|].
  by destruct (predict _).
Qed.

Lemma rerank_output query cands fetch_k top_k out evs :
  rerank query cands fetch_k top_k = (Ok out, evs) →
  (∀ x, x ∈ out → ∃ c, c ∈ cands ∧ node x = node c) ∧
  (0 <= fetch_k → Z.of_nat (length out) <= fetch_k) ∧
  (0 <= fetch_k → 0 < top_k →
   Z.of_nat (length out) <= Z.min fetch_k top_k).
Proof.
  destruct (decide (slice_to cands fetch_k = [])) as [Hs|Hs].
  - rewrite rerank_empty by done. intros [= <- <-]. simpl.
    split; [|lia]. intros x Hx. by apply elem_of_nil in Hx.
  - rewrite rerank_nonempty by done.
    destruct (predict _) as [scores|]; [|done]. cbn zeta.
    set (zipped := zip_with _ _ scores).
    intros [= <- <-].
    assert (∀ x, x ∈ sorted_desc zipped → ∃ c, c ∈ cands ∧ node x = node c)
      as Hnodes.
    { intros x Hx. apply sorted_desc_nodes in Hx.
      apply elem_of_zip_with in Hx as (n & s & -> & Hn & _).
      exists n. split; [by eapply slice_to_elem_of|done]. }
    assert (0 <= fetch_k →
            Z.of_nat (length (sorted_desc zipped)) <= fetch_k) as Hlen.
    { intros Hk. rewrite sorted_desc_length. unfold zipped.
      rewrite length_zip_with.
      pose proof (slice_to_length_bound cands fetch_k Hk). lia. }
    destruct (Z.eqb_spec top_k 0) as [->|Hne].
    + split; [done|]. split; [done|lia].
    + split; [|split].
      * intros x Hx. by apply Hnodes, (slice_to_elem_of _ top_k).
      * intros Hk. pose proof (slice_to_length (sorted_desc zipped) top_k).
        specialize (Hlen Hk). lia.
      * intros Hk Htk.
        pose proof (slice_to_length (sorted_desc zipped) top_k).
        pose proof (slice_to_length_bound (sorted_desc zipped) top_k).
        specialize (Hlen Hk). lia.
Qed.

Lemma retrieve_reranked base query cands evs0 fetch_k top_k :
  retrieve base query = (Ok cands, evs0) →
  retrieve (RerankedRetriever base fetch_k top_k) query =
    (fst (rerank query cands fetch_k top_k),
     evs0 ++ snd (rerank query cands fetch_k top_k)).
Proof.
  intros Hb. cbn [retrieve]. rewrite Hb. unfold bind.
  by destruct (rerank query cands fetch_k top_k).
Qed.

(** C3, as amended: when the first [fetch_k] candidates form an empty
    slice, which is the case when [fetch_k = 0], when the candidate list is
    empty, or when [fetch_k <= -len(candidates)], the reranker returns an
    empty list and the model is not called: the only calls are those of
    the base retriever. *)
Theorem rerank_empty_slice_skips_model
    (base : Retriever S) query cands evs0 fetch_k top_k :
  retrieve base query = (Ok cands, evs0) →
  fetch_k = 0 ∨ cands = [] ∨ fetch_k + Z.of_nat (length cands) <= 0 →
  rerank query cands fetch_k top_k = (Ok [], []) ∧
  retrieve (RerankedRetriever base fetch_k top_k) query = (Ok [], evs0).
Proof.
  intros Hb Hempty. apply slice_to_nil in Hempty.
  pose proof (rerank_empty query cands fetch_k top_k Hempty) as Hr.
  split; [done|].
  rewrite (retrieve_reranked _ _ _ _ _ _ Hb), Hr. simpl.
  by rewrite app_nil_r.
Qed.

(** C4, as amended: the reranker returns a list whenever the model
    answers (or there is nothing to score); every document of that list
    is one of the input candidates; for [fetch_k >= 0] it has at most
    [fetch_k] entries, and at most [min(fetch_k, top_k)] when moreover
    [top_k > 0] ([top_k = 0] means no limit). *)
Theorem rerank_bounded_and_from_input
    (base : Retriever S) query cands evs0 fetch_k top_k :
  retrieve base query = (Ok cands, evs0) →
  (slice_to cands fetch_k = [] ∨
   is_Some (predict (model_input query cands fetch_k)) →
   ∃ out evs,
     retrieve (RerankedRetriever base fetch_k top_k) query = (Ok out, evs)) ∧
  ∀ out evs,
    retrieve (RerankedRetriever base fetch_k top_k) query = (Ok out, evs) →
    (∀ x, x ∈ out → ∃ c, c ∈ cands ∧ node x = node c) ∧
    (0 <= fetch_k → Z.of_nat (length out) <= fetch_k) ∧
    (0 <= fetch_k → 0 < top_k →
     Z.of_nat (length out) <= Z.min fetch_k top_k).
Proof.
  intros Hb. rewrite (retrieve_reranked _ _ _ _ _ _ Hb). split.
  - intros [Hs|[scores Hp]].
    + rewrite rerank_empty by done. by eexists _, _.
    + destruct (decide (slice_to cands fetch_k = [])) as [Hs|Hs].
      * rewrite rerank_empty by done. by eexists _, _.
      * rewrite rerank_nonempty, Hp by done. by eexists _, _.
  - intros out evs Hr.
    destruct (rerank query cands fetch_k top_k) as [r evs1] eqn:Hrr.
    simpl in Hr. injection Hr as -> _.
    by eapply rerank_output.
Qed.

(** C8, as amended: when the model fails on a non-empty slice of
    candidates, the exception leaves [_retrieve] and then
    [RetrievalPipeline.retrieve]: the caller receives no ranking. *)
Theorem rerank_failure_propagates
    (base : Retriever S) query cands evs0 fetch_k top_k
    (c : Config S) (w : World) :
  retrieve base query = (Ok cands, evs0) →
  slice_to cands fetch_k ≠ [] →
  predict (model_input query cands fetch_k) = None →
  retrieve (RerankedRetriever base fetch_k top_k) query
    = (Raise ModelError,
       evs0 ++ [CallPredict (model_input query cands fetch_k)]) ∧
  pipeline_retrieve
    (mkPipeline c (Some (RerankedRetriever base fetch_k top_k))) query w
    = (Raise ModelError,
       mkWorld (trace w ++ evs0
                ++ [CallPredict (model_input query cands fetch_k)])
               (ticks w + 1)).
Proof.
  intros Hb Hs Hp.
  assert (retrieve (RerankedRetriever base fetch_k top_k) query
          = (Raise ModelError,
             evs0 ++ [CallPredict (model_input query cands fetch_k)])) as Hr.
  { rewrite (retrieve_reranked _ _ _ _ _ _ Hb).
    by rewrite rerank_nonempty, Hp by done. }
  split; [done|]. unfold pipeline_retrieve. cbn [pipeline]. by rewrite Hr.
Qed.

End RerankFacts.

(** * Properties of the pipeline *)

Section PipelineFacts.
Context {S : Type} `{Number S} `{Collaborators S}.

(** [build] in closed form: the constructors in order, then the choice
    of the base retriever. *)
Lemma build_eq (c : Config S) nodes :
  build (new_pipeline c) nodes =
  match (if use_bm25 c then bm25_from_defaults nodes (top_k c) else Ok tt) with
  | Raise e => Raise e
  | Ok _ =>
      match (if use_vector c then vector_index nodes (top_k c) else Ok tt) with
      | Raise e => Raise e
      | Ok _ =>
          if use_bm25 c || use_vector c then
            if use_reranking c then
              match cross_encoder with
              | Raise e => Raise e
              | Ok _ =>
                  Ok (mkPipeline c
                        (Some (RerankedRetriever (chosen_base c nodes)
                                 (rerank_top_k c) (top_k c))))
              end
            else Ok (mkPipeline c (Some (chosen_base c nodes)))
          else Raise StopIteration
      end
  end.
Proof.
  destruct c as [b v h rr vw bw k rk]. unfold build, new_pipeline, chosen_base.
  cbn [config pipeline use_bm25 use_vector use_hybrid use_reranking
       vector_weight bm25_weight top_k rerank_top_k].
  destruct b, v, h, rr; cbn;
    repeat match goal with
           | |- context [bm25_from_defaults ?a ?b] =>
               destruct (bm25_from_defaults a b); cbn
           | |- context [vector_index ?a ?b] =>
               destruct (vector_index a b); cbn
           | |- context [cross_encoder] => destruct cross_encoder; cbn
           end; reflexivity.
Qed.

Lemma build_ok_shape (c : Config S) nodes self :
  build (new_pipeline c) nodes = Ok self →
  use_bm25 c || use_vector c = true ∧
  self = mkPipeline c
           (Some (if use_reranking c
                  then RerankedRetriever (chosen_base c nodes)
                         (rerank_top_k c) (top_k c)
                  else chosen_base c nodes)).
Proof.
  rewrite build_eq.
  destruct (if use_bm25 c then _ else _); [|done].
  destruct (if use_vector c then _ else _); [|done].
  destruct (use_bm25 c || use_vector c); [|done].
  destruct (use_reranking c).
  - destruct cross_encoder; [|done]. by intros [= <-].
  - by intros [= <-].
Qed.

(** What the chosen base retriever does with a query: the library calls
    in order, stopping at the first that raises. *)
Lemma chosen_base_retrieve (c : Config S) nodes query :
  retrieve (chosen_base c nodes) query =
  if use_bm25 c then
    if use_hybrid c && use_vector c then
      match bm25_retrieve nodes (top_k c) query with
      | Raise e => (Raise e, [CallBM25 query])
      | Ok l1 =>
          match vector_retrieve nodes (top_k c) query with
          | Raise e => (Raise e, [CallBM25 query; CallVector query])
          | Ok l2 =>
              (Ok (fuse [("bm25"%string, l1); ("vector"%string, l2)]
                        [("vector"%string, vector_weight c);
                         ("bm25"%string, bm25_weight c)]),
               [CallBM25 query; CallVector query])
          end
      end
    else (bm25_retrieve nodes (top_k c) query, [CallBM25 query])
  else (vector_retrieve nodes (top_k c) query, [CallVector query]).
Proof.
  unfold chosen_base.
  destruct (use_bm25 c); [|reflexivity].
  destruct (use_hybrid c && use_vector c); [|reflexivity].
  cbn [retrieve]. unfold bind.
  destruct (bm25_retrieve nodes (top_k c) query) as [l1|e]; [|reflexivity].
  destruct (vector_retrieve nodes (top_k c) query) as [l2|e]; reflexivity.
Qed.

Lemma chosen_base_calls (c : Config S) nodes query :
  ∃ r ev evs, retrieve (chosen_base c nodes) query = (r, ev :: evs).
Proof.
  rewrite chosen_base_retrieve.
  destruct (use_bm25 c); [|by eexists _, _, _].
  destruct (use_hybrid c && use_vector c); [|by eexists _, _, _].
  destruct (bm25_retrieve _ _ _); [|by eexists _, _, _].
  destruct (vector_retrieve _ _ _); by eexists _, _, _.
Qed.

Lemma bind_calls {A B : Type} (m : M A) (f : A → M B) r ev evs :
  m = (r, ev :: evs) → ∃ r' evs', bind m f = (r', ev :: evs').
Proof.
  intros ->. unfold bind. destruct r as [a|e]; [|by eexists _, _].
  destruct (f a) as [r' evs']. by eexists _, _.
Qed.

(** A pipeline that [build] returns calls a retriever on every query. *)
Lemma built_pipeline_calls (c : Config S) nodes self query :
  build (new_pipeline c) nodes = Ok self →
  ∃ p r ev evs, pipeline self = Some p ∧ retrieve p query = (r, ev :: evs).
Proof.
  intros Hb. apply build_ok_shape in Hb as [_ ->]. cbn [pipeline].
  destruct (chosen_base_calls c nodes query) as (r & ev & evs & Hr).
  destruct (use_reranking c).
  - destruct (bind_calls _ (λ retrieved,
                              rerank query retrieved (rerank_top_k c) (top_k c))
                _ _ _ Hr) as (r' & evs' & Hr').
    by eexists _, r', ev, evs'.
  - by eexists _, r, ev, evs.
Qed.

(** C2, as amended: [RetrievalPipeline.retrieve] keeps no cache.  On a
    built pipeline, a second call with the same query makes the same
    calls to the retrievers (and the model) as the first, and the two
    calls yield the same ranked list, or the same exception; the elapsed
    times may differ. *)
Theorem pipeline_retrieve_twice_recomputes
    (c : Config S) nodes self query (w : World) :
  build (new_pipeline c) nodes = Ok self →
  ∃ r1 w1 r2 w2 evs,
    pipeline_retrieve self query w = (r1, w1) ∧
    pipeline_retrieve self query w1 = (r2, w2) ∧
    evs ≠ [] ∧
    trace w1 = trace w ++ evs ∧
    trace w2 = trace w1 ++ evs ∧
    same_ranking r1 r2.
Proof.
  intros Hb.
  destruct (built_pipeline_calls c nodes self query Hb)
    as (p & r & ev & evs & Hp & Hr).
  unfold pipeline_retrieve. rewrite Hp, Hr.
  destruct r as [results|e]; eexists _, _, _, _, (ev :: evs);
    (split; [reflexivity|]); (split; [reflexivity|]); by cbn.
Qed.


(** C10: with neither BM25 nor the vector retriever enabled, [build]
    raises ([StopIteration], from taking the first key of an empty
    dictionary) whatever the other options; and [retrieve] on a pipeline
    that was never built raises [ValueError] without any call. *)
Theorem no_retriever_or_not_built_raises :
  (∀ (hybrid rerank : bool) (vw bw : S) (k rk : Z) nodes,
     build (new_pipeline (mkConfig false false hybrid rerank vw bw k rk)) nodes
     = Raise StopIteration) ∧
  (∀ (c : Config S) query (w : World),
     pipeline_retrieve (new_pipeline c) query w = (Raise ValueError, w)).
Proof.
  split.
  - intros. by rewrite build_eq.
  - done.
Qed.

End PipelineFacts.

(** * The statements on the concrete setting *)

Section WorkingModel.
Import Example.
Local Existing Instance working.
Local Open Scope string_scope.
Local Open Scope list_scope.

Lemma fusion_sorted_stable_untruncated_witness :
  answers "q" hybrid_retrievers hybrid_answers ∧
  ∃ evs unsorted,
    retrieve (WeightedFusionRetriever hybrid_retrievers hybrid_weights) "q"
      = (Ok (sorted_desc unsorted), evs) ∧
    ids_of unsorted = first_seen (candidate_ids hybrid_answers) ∧
    StronglySorted not_below (sorted_desc unsorted) ∧
    (∀ s, List.filter (tied s) (sorted_desc unsorted)
          = List.filter (tied s) unsorted) ∧
    length (sorted_desc unsorted)
      = size (list_to_set (candidate_ids hybrid_answers) : gset string).
Proof.
  assert (answers "q" hybrid_retrievers hybrid_answers) as Hans.
  { repeat constructor; eexists; reflexivity. }
  split; [exact Hans|].
  exact (fusion_sorted_stable_untruncated
           hybrid_retrievers hybrid_weights "q" hybrid_answers Hans).
Defined.

(** Hybrid pipeline with [top_k = 1]: two documents of equal fused score
    come back, "b" ahead of "a". *)
Lemma fusion_ties_by_arrival_and_no_truncation :
  ∃ self x y,
    build (new_pipeline hybrid_config) corpus = Ok self ∧
    pipeline self
      = Some (WeightedFusionRetriever hybrid_retrievers hybrid_weights) ∧
    retrieve (WeightedFusionRetriever hybrid_retrievers hybrid_weights) "q"
      = (Ok [x; y], [CallBM25 "q"; CallVector "q"]) ∧
    score x = score y ∧
    node_id (node x) = "b" ∧ node_id (node y) = "a" ∧
    String.compare (node_id (node y)) (node_id (node x)) = Lt ∧
    top_k hybrid_config < Z.of_nat (length [x; y]).
Proof.
  eexists _, _, _. split; [reflexivity|]. split; [reflexivity|].
  split; [reflexivity|]. cbn. repeat split; reflexivity.
Qed.

Lemma pipeline_retrieve_twice_recomputes_witness :
  build (new_pipeline bm25_reranked) [doc_a; doc_b]
    = Ok (mkPipeline bm25_reranked (Some (RerankedRetriever bm25_base 10 5))) ∧
  ∃ r1 w1 r2 w2 evs,
    pipeline_retrieve
      (mkPipeline bm25_reranked (Some (RerankedRetriever bm25_base 10 5)))
      "q" start = (r1, w1) ∧
    pipeline_retrieve
      (mkPipeline bm25_reranked (Some (RerankedRetriever bm25_base 10 5)))
      "q" w1 = (r2, w2) ∧
    evs ≠ [] ∧
    trace w1 = trace start ++ evs ∧
    trace w2 = trace w1 ++ evs ∧
    same_ranking r1 r2.
Proof.
  split; [reflexivity|].
  apply (pipeline_retrieve_twice_recomputes bm25_reranked [doc_a; doc_b]).
  reflexivity.
Defined.

(** The second of two identical calls reaches the BM25 retriever again. *)
Lemma pipeline_second_call_is_not_a_hit :
  ∃ self r1 w1 r2 w2,
    build (new_pipeline bm25_only) [doc_a; doc_b] = Ok self ∧
    pipeline_retrieve self "q" start = (Ok r1, w1) ∧
    pipeline_retrieve self "q" w1 = (Ok r2, w2) ∧
    trace w1 = [CallBM25 "q"] ∧
    trace w2 = [CallBM25 "q"; CallBM25 "q"].
Proof.
  eexists _, _, _, _, _. split; [reflexivity|]. split; [reflexivity|].
  split; [reflexivity|]. split; reflexivity.
Qed.

Lemma rerank_empty_slice_skips_model_witness :
  retrieve bm25_base "q" = (Ok bm25_answer, [CallBM25 "q"]) ∧
  (0 = 0 ∨ bm25_answer = [] ∨ 0 + Z.of_nat (length bm25_answer) <= 0) ∧
  rerank "q" bm25_answer 0 5 = (Ok [], []) ∧
  retrieve (RerankedRetriever bm25_base 0 5) "q" = (Ok [], [CallBM25 "q"]).
Proof.
  split; [reflexivity|]. split; [by left|].
  apply (rerank_empty_slice_skips_model bm25_base "q" bm25_answer
           [CallBM25 "q"] 0 5); [reflexivity|by left].
Defined.

(** With [fetch_k = -1] the slice drops the last candidate only: the
    model is called on the other and its document is returned. *)
Lemma rerank_negative_fetch_k_calls_model :
  retrieve bm25_base "q" = (Ok bm25_answer, [CallBM25 "q"]) ∧
  retrieve (RerankedRetriever bm25_base (-1) 5) "q"
  = (Ok [mkNodeWithScore doc_a 5],
     [CallBM25 "q"; CallPredict [("q", "alpha")]]).
Proof. split; reflexivity. Qed.

Lemma rerank_bounded_and_from_input_witness :
  retrieve bm25_base "q" = (Ok bm25_answer, [CallBM25 "q"]) ∧
  (slice_to bm25_answer 1 = [] ∨
   is_Some (predict (model_input "q" bm25_answer 1)) →
   ∃ out evs,
     retrieve (RerankedRetriever bm25_base 1 3) "q" = (Ok out, evs)) ∧
  ∀ out evs,
    retrieve (RerankedRetriever bm25_base 1 3) "q" = (Ok out, evs) →
    (∀ x, x ∈ out → ∃ c, c ∈ bm25_answer ∧ node x = node c) ∧
    (0 <= 1 → Z.of_nat (length out) <= 1) ∧
    (0 <= 1 → 0 < 3 → Z.of_nat (length out) <= Z.min 1 3).
Proof.
  split; [reflexivity|].
  apply (rerank_bounded_and_from_input bm25_base "q" bm25_answer
           [CallBM25 "q"] 1 3).
  reflexivity.
Defined.

(** With [top_k = 0] nothing is cut after the sort: both candidates come
    back although [min(fetch_k, top_k) = 0]. *)
Lemma rerank_top_k_zero_returns_all :
  retrieve bm25_base "q" = (Ok bm25_answer, [CallBM25 "q"]) ∧
  ∃ out evs,
    retrieve (RerankedRetriever bm25_base 2 0) "q" = (Ok out, evs) ∧
    out = [mkNodeWithScore doc_b 9; mkNodeWithScore doc_a 5] ∧
    Z.min 2 0 < Z.of_nat (length out).
Proof.
  split; [reflexivity|]. eexists _, _. split; [reflexivity|].
  split; [reflexivity|]. by vm_compute.
Qed.

End WorkingModel.

Section FailingModel.
Import Example.
Local Existing Instance model_down.
Local Open Scope string_scope.
Local Open Scope list_scope.

Lemma rerank_failure_propagates_witness :
  retrieve bm25_base "q" = (Ok bm25_answer, [CallBM25 "q"]) ∧
  slice_to bm25_answer 10 ≠ [] ∧
  predict (model_input "q" bm25_answer 10) = None ∧
  retrieve (RerankedRetriever bm25_base 10 5) "q"
    = (Raise ModelError,
       [CallBM25 "q"] ++ [CallPredict (model_input "q" bm25_answer 10)]) ∧
  pipeline_retrieve
    (mkPipeline bm25_reranked (Some (RerankedRetriever bm25_base 10 5)))
    "q" start
    = (Raise ModelError,
       mkWorld (trace start ++ [CallBM25 "q"]
                ++ [CallPredict (model_input "q" bm25_answer 10)])
               (ticks start + 1)).
Proof.
  split; [reflexivity|]. split; [done|]. split; [reflexivity|].
  apply (rerank_failure_propagates bm25_base "q" bm25_answer [CallBM25 "q"]
           10 5 bm25_reranked start); [reflexivity|done|reflexivity].
Defined.

(** The base ranking exists, the model fails, and the caller gets the
    exception instead of that ranking. *)
Lemma rerank_failure_reaches_caller :
  ∃ self w,
    build (new_pipeline bm25_reranked) [doc_a; doc_b] = Ok self ∧
    pipeline self = Some (RerankedRetriever bm25_base 10 5) ∧
    retrieve bm25_base "q" = (Ok bm25_answer, [CallBM25 "q"]) ∧
    pipeline_retrieve self "q" start = (Raise ModelError, w).
Proof.
  eexists _, _. split; [reflexivity|]. split; [reflexivity|].
  split; reflexivity.
Qed.

End FailingModel.

Section StrictLibrary.
Import Example.
Local Existing Instance strict.
Local Open Scope string_scope.
Local Open Scope list_scope.


End StrictLibrary.

Set Warnings "-clear-no-such-hyp".

(** * Further properties of the LRU cache *)

Section LRUMore.
Context {K V : Type} `{Countable K}.
Implicit Types (c : LRU.LRUCache K V) (k : K) (v : V) (l : list K).

Lemma filter_ne_absent k l : k ∉ l → filter (λ x, x ≠ k) l = l.
Proof.
  induction l as [|y l IH]; intros Hnin; [done|].
  apply not_elem_of_cons in Hnin as [Hne Hnin].
  rewrite filter_cons_True by done. by rewrite IH.
Qed.

(** With distinct entries, [list.remove] is the filter that drops the key. *)
Lemma list_remove_filter k l :
  NoDup l → k ∈ l →
  LRU.list_remove k l = Some (filter (λ x, x ≠ k) l).
Proof.
  induction l as [|y l IH]; intros Hnd Hin.
  - by apply elem_of_nil in Hin.
  - apply NoDup_cons in Hnd as [Hy Hnd]. simpl.
    destruct (decide (k = y)) as [->|Hne].
    + rewrite filter_cons_False by (intros ?; done).
      by rewrite filter_ne_absent.
    + apply elem_of_cons in Hin as [?|Hin]; [done|].
      rewrite (IH Hnd Hin). rewrite filter_cons_True; [done|].
      by intros ->.
Qed.

Lemma put_lookup_eq c k v c' :
  LRU.put k v c = Ok c' → LRU.cache c' !! k = Some v.
Proof.
  unfold LRU.put.
  destruct (LRU.cache c !! k).
  - destruct (LRU.list_remove k (LRU.usage_order c)); [|done].
    intros [= <-]. apply lookup_insert_eq.
  - destruct (LRU.capacity c <=? LRU.len c).
    + destruct (LRU.usage_order c) as [|lru rest]; [done|].
      destruct (LRU.cache c !! lru); [|done].
      intros [= <-]. apply lookup_insert_eq.
    + intros [= <-]. apply lookup_insert_eq.
Qed.

(** X1: what [put] stores, the next [get] of the same key returns, and
    that [get] leaves the stored entries as they are. *)
Theorem lru_put_then_get c k v :
  LRU.inv c → 1 <= LRU.capacity c →
  ∃ c' c'', LRU.put k v c = Ok c' ∧
            LRU.get k c' = Ok (Some v, c'') ∧
            LRU.cache c'' = LRU.cache c'.
Proof.
  intros Hinv Hpos.
  destruct (put_inv c k v Hinv Hpos) as (c' & Hput & Hinv' & _).
  pose proof (put_lookup_eq _ _ _ _ Hput) as Hv.
  destruct (get_hit c' k v (proj1 Hinv') Hv) as (r & _ & Hget).
  eexists c', _. split; [done|]. split; [exact Hget|done].
Qed.

Lemma put_other_keys c k v c' k' :
  LRU.put k v c = Ok c' → k' ≠ k →
  LRU.cache c' !! k' = LRU.cache c !! k' ∨
  (LRU.cache c !! k = None ∧ LRU.capacity c <= LRU.len c ∧
   head (LRU.usage_order c) = Some k' ∧ LRU.cache c' !! k' = None).
Proof.
  intros Hput Hne. unfold LRU.put in Hput.
  destruct (LRU.cache c !! k) eqn:Hk.
  - destruct (LRU.list_remove k (LRU.usage_order c)); [|done].
    injection Hput as <-. left. simpl. by rewrite lookup_insert_ne.
  - destruct (Z.leb_spec (LRU.capacity c) (LRU.len c)).
    + destruct (LRU.usage_order c) as [|lru rest]; [done|].
      destruct (LRU.cache c !! lru); [|done].
      injection Hput as <-. simpl. rewrite lookup_insert_ne by done.
      destruct (decide (k' = lru)) as [->|Hl].
      * right. by rewrite lookup_delete_eq.
      * left. by rewrite lookup_delete_ne.
    + injection Hput as <-. left. simpl. by rewrite lookup_insert_ne.
Qed.

(** X2: a [put] leaves every other key's entry as it was, except for the
    one key it evicts: the head of [usage_order], and only when the key
    put is new and the cache is full. *)
Theorem lru_put_other_keys c k v c' k' :
  LRU.put k v c = Ok c' → k' ≠ k →
  LRU.cache c' !! k' = LRU.cache c !! k' ∨
  (LRU.cache c !! k = None ∧ LRU.capacity c <= LRU.len c ∧
   head (LRU.usage_order c) = Some k' ∧ LRU.cache c' !! k' = None).
Proof.
  intros Hput Hne. unfold LRU.put in Hput.
  destruct (LRU.cache c !! k) eqn:Hk.
  - destruct (LRU.list_remove k (LRU.usage_order c)); [|done].
    injection Hput as <-. left. simpl. by rewrite lookup_insert_ne.
  - destruct (Z.leb_spec (LRU.capacity c) (LRU.len c)).
    + destruct (LRU.usage_order c) as [|lru rest]; [done|].
      destruct (LRU.cache c !! lru); [|done].
      injection Hput as <-. simpl. rewrite lookup_insert_ne by done.
      destruct (decide (k' = lru)) as [->|Hl].
      * right. by rewrite lookup_delete_eq.
      * left. by rewrite lookup_delete_ne.
    + injection Hput as <-. left. simpl. by rewrite lookup_insert_ne.
Qed.

Lemma put_size c k v :
  LRU.inv c → 1 <= LRU.capacity c →
  ∃ c', LRU.put k v c = Ok c' ∧
        LRU.len c' =
          (if decide (is_Some (LRU.cache c !! k)) then LRU.len c
           else Z.min (LRU.capacity c) (LRU.len c + 1)) ∧
        (is_Some (LRU.cache c !! k) ∨ LRU.len c < LRU.capacity c →
         dom (LRU.cache c) ⊆ dom (LRU.cache c')).
Proof.
  intros [Hka Hwc] Hpos. unfold LRU.within_capacity in Hwc.
  destruct (decide (is_Some (LRU.cache c !! k))) as [Hs|Hn].
  - destruct (put_present c k v Hka Hs) as (r & _ & ->).
    eexists. split; [done|]. simpl. split.
    + unfold LRU.len. simpl. by rewrite map_size_insert_Some.
    + intros _. rewrite dom_insert_L. set_solver.
  - assert (LRU.cache c !! k = None) as Hk.
    { destruct (LRU.cache c !! k); [|done]. exfalso. apply Hn. by eexists. }
    destruct (Z.lt_ge_cases (LRU.len c) (LRU.capacity c)) as [Hlt|Hge].
    + rewrite (put_room c k v Hk Hlt). eexists. split; [done|]. simpl. split.
      * unfold LRU.len in *. simpl. rewrite map_size_insert_None by done. lia.
      * intros _. rewrite dom_insert_L. set_solver.
    + destruct (put_full c k v Hka Hk) as (lru & rest & Hu & ->); [lia|].
      eexists. split; [done|]. simpl. split.
      * pose proof (keys_agree_length c Hka) as Hlen.
        destruct Hka as [Hnd Hkk]. rewrite Hu in Hkk, Hnd.
        assert (is_Some (LRU.cache c !! lru)) as Hlru.
        { apply Hkk, elem_of_cons. by left. }
        assert (k ≠ lru) as Hne.
        { intros ->. rewrite Hk in Hlru. by destruct Hlru. }
        unfold LRU.len in *. simpl.
        rewrite map_size_insert_None by (by rewrite lookup_delete_ne).
        rewrite map_size_delete_Some by done.
        assert (size (LRU.cache c) ≠ 0%nat).
        { rewrite <- Hlen, Hu. done. }
        lia.
      * intros [Hs|Hlt]; [done|lia].
Qed.

(** X3: the size after a [put]: unchanged when the key was present or the
    cache was full, one more otherwise; and nothing is evicted unless the
    key is new and the cache is full. *)
Theorem lru_put_size c k v :
  LRU.inv c → 1 <= LRU.capacity c →
  ∃ c', LRU.put k v c = Ok c' ∧
        LRU.len c' =
          (if decide (is_Some (LRU.cache c !! k)) then LRU.len c
           else Z.min (LRU.capacity c) (LRU.len c + 1)) ∧
        (is_Some (LRU.cache c !! k) ∨ LRU.len c < LRU.capacity c →
         dom (LRU.cache c) ⊆ dom (LRU.cache c')).
Proof.
  intros [Hka Hwc] Hpos. unfold LRU.within_capacity in Hwc.
  destruct (decide (is_Some (LRU.cache c !! k))) as [Hs|Hn].
  - destruct (put_present c k v Hka Hs) as (r & _ & ->).
    eexists. split; [done|]. simpl. split.
    + unfold LRU.len. simpl. by rewrite map_size_insert_Some.
    + intros _. rewrite dom_insert_L. set_solver.
  - assert (LRU.cache c !! k = None) as Hk.
    { destruct (LRU.cache c !! k); [|done]. exfalso. apply Hn. by eexists. }
    destruct (Z.lt_ge_cases (LRU.len c) (LRU.capacity c)) as [Hlt|Hge].
    + rewrite (put_room c k v Hk Hlt). eexists. split; [done|]. simpl. split.
      * unfold LRU.len in *. simpl. rewrite map_size_insert_None by done. lia.
      * intros _. rewrite dom_insert_L. set_solver.
    + destruct (put_full c k v Hka Hk) as (lru & rest & Hu & ->); [lia|].
      eexists. split; [done|]. simpl. split.
      * pose proof (keys_agree_length c Hka) as Hlen.
        destruct Hka as [Hnd Hkk]. rewrite Hu in Hkk, Hnd.
        assert (is_Some (LRU.cache c !! lru)) as Hlru.
        { apply Hkk, elem_of_cons. by left. }
        assert (k ≠ lru) as Hne.
        { intros ->. rewrite Hk in Hlru. by destruct Hlru. }
        unfold LRU.len in *. simpl.
        rewrite map_size_insert_None by (by rewrite lookup_delete_ne).
        rewrite map_size_delete_Some by done.
        assert (size (LRU.cache c) ≠ 0%nat).
        { rewrite <- Hlen, Hu. done. }
        lia.
      * intros [Hs|Hlt]; [done|lia].
Qed.

Lemma get_behaviour c k :
  LRU.inv c →
  ∃ c', LRU.get k c = Ok (LRU.cache c !! k, c') ∧
        LRU.cache c' = LRU.cache c ∧
        LRU.capacity c' = LRU.capacity c ∧
        LRU.usage_order c' =
          (if decide (is_Some (LRU.cache c !! k))
           then filter (λ x, x ≠ k) (LRU.usage_order c) ++ [k]
           else LRU.usage_order c).
Proof.
  intros [[Hnd Hkk] _].
  destruct (LRU.cache c !! k) as [v|] eqn:Hk.
  - assert (k ∈ LRU.usage_order c) as Hin by (apply Hkk; by eexists).
    unfold LRU.get. rewrite Hk, (list_remove_filter k _ Hnd Hin).
    eexists. split; [done|]. simpl. split; [done|]. split; [done|].
    done.
  - rewrite (get_miss c k Hk). exists c. by simpl.
Qed.

(** X4: [get] under the invariant.  It returns the stored value, or
    [None] for a key that is not stored; it never changes the stored
    entries; a miss changes nothing at all, and a hit moves the key to the
    end of [usage_order] while the other keys keep their relative order. *)
Theorem lru_get_behaviour c k :
  LRU.inv c →
  ∃ c', LRU.get k c = Ok (LRU.cache c !! k, c') ∧
        LRU.cache c' = LRU.cache c ∧
        LRU.capacity c' = LRU.capacity c ∧
        LRU.usage_order c' =
          (if decide (is_Some (LRU.cache c !! k))
           then filter (λ x, x ≠ k) (LRU.usage_order c) ++ [k]
           else LRU.usage_order c).
Proof.
  intros [[Hnd Hkk] _].
  destruct (LRU.cache c !! k) as [v|] eqn:Hk.
  - assert (k ∈ LRU.usage_order c) as Hin by (apply Hkk; by eexists).
    unfold LRU.get. rewrite Hk, (list_remove_filter k _ Hnd Hin).
    eexists. split; [done|]. simpl. split; [done|]. split; [done|].
    done.
  - rewrite (get_miss c k Hk). exists c. by simpl.
Qed.

(** X5: a cache whose capacity is zero or negative cannot hold anything:
    the first [put] into the empty cache raises [IndexError]. *)
Theorem lru_nonpositive_capacity_put_raises (cap : Z) k v :
  cap <= 0 →
  LRU.put k v (LRU.init (K:=K) (V:=V) cap) = Raise IndexError.
Proof.
  intros Hcap. unfold LRU.put, LRU.init, LRU.len. simpl.
  rewrite lookup_empty, map_size_empty.
  destruct (Z.leb_spec cap (Z.of_nat 0)); [done|lia].
Qed.

(** X6: in a full cache, the [put] of a new key evicts exactly the key at
    the head of [usage_order], whatever calls led to that state. *)
Theorem lru_full_put_evicts_head c k v :
  LRU.inv c → 1 <= LRU.capacity c → LRU.len c = LRU.capacity c →
  LRU.cache c !! k = None →
  ∃ lru rest c',
    LRU.usage_order c = lru :: rest ∧
    LRU.put k v c = Ok c' ∧
    LRU.usage_order c' = rest ++ [k] ∧
    dom (LRU.cache c') = {[k]} ∪ dom (LRU.cache c) ∖ {[lru]} ∧
    lru ∉ dom (LRU.cache c').
Proof.
  intros [Hka _] Hpos Hfull Hk.
  destruct (put_full c k v Hka Hk) as (lru & rest & Hu & Hput); [lia|].
  exists lru, rest. eexists. split; [done|]. split; [exact Hput|].
  simpl. split; [done|]. rewrite dom_after_eviction. split; [done|].
  assert (is_Some (LRU.cache c !! lru)) as Hlru.
  { apply Hka. rewrite Hu. apply elem_of_cons. by left. }
  assert (k ≠ lru).
  { intros ->. rewrite Hk in Hlru. by destruct Hlru. }
  set_solver.
Qed.

End LRUMore.

Section LRUGuarantee.
Context {K V : Type} `{Countable K}.
Implicit Types (c : LRU.LRUCache K V) (k : K) (v : V) (l : list K)
               (D : gset K).

Lemma step_protected D k c (o : LRU.op K V) :
  LRU.inv c → 1 <= LRU.capacity c → k ∉ D →
  Z.of_nat (size D) <= LRU.capacity c - 1 →
  protected_by D k c → touches_only D o →
  ∃ c', LRU.step o c = Ok c' ∧ LRU.inv c' ∧
        LRU.capacity c' = LRU.capacity c ∧
        LRU.cache c' !! k = LRU.cache c !! k ∧
        protected_by D k c'.
Proof.
  intros Hinv Hpos HkD HD (l1 & l2 & Hu & Hl2) Ho.
  destruct (step_inv o c Hinv Hpos) as (c' & Hstep & Hinv' & Hcap').
  exists c'. split; [done|]. split; [done|]. split; [done|].
  pose proof Hinv as [[Hnd Hkk] Hwc].
  assert (∀ k0, k0 ∈ D → k0 ≠ k) as Hne by (intros k0 ? ->; done).
  assert (∀ k0, k0 ∈ D →
            filter (λ x, x ≠ k0) (LRU.usage_order c) ++ [k0]
            = filter (λ x, x ≠ k0) l1 ++ k :: (filter (λ x, x ≠ k0) l2 ++ [k0]))
    as Hfilter.
  { intros k0 Hk0. rewrite Hu, filter_app, filter_cons_True.
    - by rewrite <- app_assoc.
    - intros Heq. by apply (Hne k0). }
  assert (∀ k0, k0 ∈ D →
            list_to_set (filter (λ x, x ≠ k0) l2 ++ [k0]) ⊆ D) as Hsub.
  { intros k0 Hk0 x. rewrite elem_of_list_to_set, elem_of_app.
    rewrite list_elem_of_filter, list_elem_of_singleton.
    intros [[_ Hx]| ->]; [|done]. apply Hl2. by apply elem_of_list_to_set. }
  destruct o as [k0|k0 v0|]; simpl in Ho, Hstep; [| |done].
  - (* get *)
    destruct (get_behaviour c k0 Hinv) as (c1 & Hget & Hc & _ & Hu1).
    rewrite Hget in Hstep. injection Hstep as <-.
    split; [by rewrite Hc|].
    destruct (decide (is_Some (LRU.cache c !! k0))).
    + eexists _, _. rewrite Hu1. split; [by apply Hfilter|by apply Hsub].
    + exists l1, l2. by rewrite Hu1.
  - (* put *)
    destruct (LRU.cache c !! k0) as [w|] eqn:Hk0.
    + destruct (put_present c k0 v0 (proj1 Hinv)) as (r & Hr & Hput);
        [by eexists|].
      rewrite Hput in Hstep. injection Hstep as <-. simpl.
      split; [by rewrite lookup_insert_ne by (by apply Hne)|].
      assert (k0 ∈ LRU.usage_order c) as Hin by (apply Hkk; by eexists).
      rewrite (list_remove_filter k0 _ Hnd Hin) in Hr. injection Hr as <-.
      eexists _, _. simpl. split; [by apply Hfilter|by apply Hsub].
    + destruct (Z.lt_ge_cases (LRU.len c) (LRU.capacity c)) as [Hlt|Hge].
      * rewrite (put_room c k0 v0 Hk0 Hlt) in Hstep. injection Hstep as <-.
        simpl. split; [by rewrite lookup_insert_ne by (by apply Hne)|].
        exists l1, (l2 ++ [k0]). simpl. split.
        -- by rewrite Hu, <- app_assoc.
        -- rewrite list_to_set_app_L. set_solver.
      * destruct (put_full c k0 v0 (proj1 Hinv) Hk0) as (lru & rest & Hur & Hput);
          [lia|].
        rewrite Hput in Hstep. injection Hstep as <-. simpl.
        destruct l1 as [|x l1'].
        -- (* [k] at the head: more than [size D] keys would be needed *)
           exfalso. simpl in Hu.
           pose proof (keys_agree_length c (proj1 Hinv)) as Hlen.
           rewrite Hu in Hlen, Hnd. simpl in Hlen.
           apply NoDup_cons in Hnd as [_ Hnd2].
           assert (k0 ∉ l2) as Hk0l2.
           { intros Hin. assert (is_Some (LRU.cache c !! k0)) as [? ?];
               [|congruence].
             apply Hkk. rewrite Hu. apply elem_of_cons. by right. }
           assert (NoDup (k0 :: l2)) as Hnd3 by by constructor.
           pose proof (size_list_to_set (C:=gset K) _ Hnd3) as Hsz.
           assert (list_to_set (k0 :: l2) ⊆ D) as Hs.
           { simpl. set_solver. }
           apply subseteq_size in Hs. rewrite Hsz in Hs. simpl in Hs.
           unfold LRU.len, LRU.within_capacity in *. lia.
        -- simpl in Hu. rewrite Hu in Hur. injection Hur as <- <-.
           assert (k ≠ x) as Hkx.
           { intros ->. rewrite Hu in Hnd. apply NoDup_cons in Hnd as [Hx _].
             apply Hx, elem_of_app. right. apply elem_of_cons. by left. }
           split.
           ++ rewrite lookup_insert_ne by (by apply Hne).
              by rewrite lookup_delete_ne.
           ++ exists l1', (l2 ++ [k0]). split.
              ** by rewrite <- app_assoc.
              ** rewrite list_to_set_app_L. set_solver.
Qed.

(** X7: the LRU guarantee.  Once [k] is the most recently used key, it
    stays stored, with its value, through every sequence of [get] and
    [put] calls on other keys, as long as these calls involve at most
    [capacity - 1] distinct keys. *)
Theorem lru_recent_key_survives c k D (ops : list (LRU.op K V)) :
  LRU.inv c → 1 <= LRU.capacity c →
  last (LRU.usage_order c) = Some k →
  k ∉ D → Z.of_nat (size D) <= LRU.capacity c - 1 →
  Forall (touches_only D) ops →
  ∃ c', LRU.run ops c = Ok c' ∧
        LRU.cache c' !! k = LRU.cache c !! k ∧
        is_Some (LRU.cache c' !! k).
Proof.
  intros Hinv Hpos Hlast HkD HD Hops.
  assert (protected_by D k c) as Hprot.
  { apply last_Some in Hlast as [l1 Hl1]. exists l1, [].
    split; [done|]. simpl. set_solver. }
  assert (is_Some (LRU.cache c !! k)) as Hk.
  { apply Hinv. destruct Hprot as (l1 & l2 & -> & _).
    apply elem_of_app. right. apply elem_of_cons. by left. }
  clear Hlast. revert c Hinv Hpos HD Hprot Hk.
  induction Hops as [|o ops Ho Hops IH]; intros c Hinv Hpos HD Hprot Hk.
  - exists c. by simpl.
  - destruct (step_protected D k c o Hinv Hpos HkD HD Hprot Ho)
      as (c1 & Hstep & Hinv1 & Hcap1 & Hk1 & Hprot1).
    simpl. rewrite Hstep.
    destruct (IH c1 Hinv1) as (c' & Hrun & Hk' & Hs).
    + lia.
    + lia.
    + done.
    + by rewrite Hk1.
    + exists c'. split; [done|]. split; [by rewrite Hk', Hk1|done].
Qed.

End LRUGuarantee.

(** * Further properties of [cached_query] and of the query loops *)

Section CachedQueryMore.
Import CachedQuery.
Context {R : Type} (collection_query : string → Z → R).
Implicit Types (w : @world R) (q : string) (n : Z).

Lemma put_coherent w q n c' calls :
  Workload.coherent collection_query w →
  LRU.put (cache_key q n) (collection_query q n) (query_cache w) = Ok c' →
  Workload.coherent collection_query (mkWorld c' calls).
Proof.
  intros Hco Hput q' n' v'. simpl.
  destruct (decide (cache_key q' n' = cache_key q n)) as [Heq|Hne].
  - rewrite Heq, (put_lookup_eq _ _ _ _ Hput). intros [= <-].
    apply cache_key_inj in Heq as [-> ->]. done.
  - destruct (put_other_keys _ _ _ _ _ Hput Hne) as [->|(_ & _ & _ & ->)].
    + apply Hco.
    + done.
Qed.

Lemma cached_query_answer w q n (use_cache : bool) :
  LRU.inv (query_cache w) → 1 <= LRU.capacity (query_cache w) →
  Workload.coherent collection_query w →
  ∃ hit w',
    cached_query collection_query q n use_cache w
      = Ok ((collection_query q n, hit), w') ∧
    Workload.coherent collection_query w' ∧
    LRU.inv (query_cache w') ∧
    LRU.capacity (query_cache w') = LRU.capacity (query_cache w).
Proof.
  intros Hinv Hpos Hco. destruct w as [c calls]. simpl in *.
  unfold cached_query. simpl. destruct use_cache.
  - destruct (get_behaviour c (cache_key q n) Hinv)
      as (c1 & Hget & Hc1 & Hcap1 & _).
    destruct (get_inv c (cache_key q n) Hinv) as (o & c1' & Hget' & Hinv1 & _).
    rewrite Hget in Hget'. injection Hget' as <- <-.
    rewrite Hget.
    destruct (LRU.cache c !! cache_key q n) as [v|] eqn:Hv.
    + rewrite (Hco q n v Hv). eexists true, _. split; [done|]. simpl.
      split; [|done]. intros q' n' v'. simpl. rewrite Hc1. apply Hco.
    + unfold do_query.
      destruct (put_inv c1 (cache_key q n) (collection_query q n) Hinv1)
        as (c2 & Hput & Hinv2 & Hcap2); [lia|].
      rewrite Hput. eexists false, _. split; [done|]. simpl.
      split; [|split; [done|lia]].
      apply (put_coherent (mkWorld c1 calls) q n); [|done].
      intros q' n' v'. simpl. rewrite Hc1. apply Hco.
  - unfold do_query. eexists false, _. split; [done|]. by simpl.
Qed.

(** X8: the answer of [cached_query] is the store's answer to the same
    query and count, on a hit as on a miss, with or without the cache:
    a hit never returns the result of another query.  The property of the
    cache that ensures it is kept by every call. *)
Theorem cached_query_returns_store_answer w q n (use_cache : bool) :
  LRU.inv (query_cache w) → 1 <= LRU.capacity (query_cache w) →
  Workload.coherent collection_query w →
  ∃ hit w',
    cached_query collection_query q n use_cache w
      = Ok ((collection_query q n, hit), w') ∧
    Workload.coherent collection_query w' ∧
    LRU.inv (query_cache w') ∧
    LRU.capacity (query_cache w') = LRU.capacity (query_cache w).
Proof.
  intros Hinv Hpos Hco. destruct w as [c calls]. simpl in *.
  unfold cached_query. simpl. destruct use_cache.
  - destruct (get_behaviour c (cache_key q n) Hinv)
      as (c1 & Hget & Hc1 & Hcap1 & _).
    destruct (get_inv c (cache_key q n) Hinv) as (o & c1' & Hget' & Hinv1 & _).
    rewrite Hget in Hget'. injection Hget' as <- <-.
    rewrite Hget.
    destruct (LRU.cache c !! cache_key q n) as [v|] eqn:Hv.
    + rewrite (Hco q n v Hv). eexists true, _. split; [done|]. simpl.
      split; [|done]. intros q' n' v'. simpl. rewrite Hc1. apply Hco.
    + unfold do_query.
      destruct (put_inv c1 (cache_key q n) (collection_query q n) Hinv1)
        as (c2 & Hput & Hinv2 & Hcap2); [lia|].
      rewrite Hput. eexists false, _. split; [done|]. simpl.
      split; [|split; [done|lia]].
      apply (put_coherent (mkWorld c1 calls) q n); [|done].
      intros q' n' v'. simpl. rewrite Hc1. apply Hco.
  - unfold do_query. eexists false, _. split; [done|]. by simpl.
Qed.

(** X9: with the cache in use, a call is a hit exactly when the key of
    the query is stored; a hit does not reach the store, a miss reaches
    it once, with this query, and stores the answer under the key. *)
Theorem cached_query_hit_iff_stored w q n :
  LRU.inv (query_cache w) → 1 <= LRU.capacity (query_cache w) →
  ∃ r hit w',
    cached_query collection_query q n true w = Ok ((r, hit), w') ∧
    (hit = true ↔ is_Some (LRU.cache (query_cache w) !! cache_key q n)) ∧
    store_calls w' = store_calls w ++ (if hit then [] else [(q, n)]) ∧
    LRU.cache (query_cache w') !! cache_key q n = Some r.
Proof.
  intros Hinv Hpos. destruct w as [c calls]. simpl in *.
  unfold cached_query. simpl.
  destruct (get_behaviour c (cache_key q n) Hinv)
    as (c1 & Hget & Hc1 & Hcap1 & _).
  destruct (get_inv c (cache_key q n) Hinv) as (o & c1' & Hget' & Hinv1 & _).
  rewrite Hget in Hget'. injection Hget' as <- <-. rewrite Hget.
  destruct (LRU.cache c !! cache_key q n) as [v|] eqn:Hv.
  - eexists v, true, _. split; [done|]. simpl. rewrite app_nil_r, Hc1.
    split; [|done]. split; [by eexists|done].
  - unfold do_query.
    destruct (put_inv c1 (cache_key q n) (collection_query q n) Hinv1)
      as (c2 & Hput & _); [lia|].
    rewrite Hput. eexists _, false, _. split; [done|]. simpl.
    split; [|split; [done|by eapply put_lookup_eq]].
    split; [done|]. by intros [? ?].
Qed.

(** X10: the loop without the cache asks the store once per query, in
    order, and leaves the cache as it was. *)
Theorem run_without_cache_queries_store (queries : list string) w :
  Workload.run_without_cache collection_query queries w
  = Ok (mkWorld (query_cache w)
                (store_calls w ++ map (λ q, (q, 10)) queries)).
Proof.
  revert w. induction queries as [|q queries IH]; intros [c calls]; simpl.
  - by rewrite app_nil_r.
  - rewrite IH. simpl. by rewrite <- app_assoc.
Qed.

End CachedQueryMore.

Section QueryLoops.
Import CachedQuery.
Context {R : Type} (collection_query : string → Z → R).
Implicit Types (w : @world R) (q : string) (n : Z).

(** The two courses of a call that uses the cache. *)
Lemma cached_query_cases w q n :
  LRU.inv (query_cache w) → 1 <= LRU.capacity (query_cache w) →
  (∃ v c', LRU.cache (query_cache w) !! cache_key q n = Some v ∧
           cached_query collection_query q n true w
             = Ok ((v, true), mkWorld c' (store_calls w)) ∧
           LRU.cache c' = LRU.cache (query_cache w) ∧
           LRU.inv c' ∧ LRU.capacity c' = LRU.capacity (query_cache w))
  ∨
  (∃ c', LRU.cache (query_cache w) !! cache_key q n = None ∧
         cached_query collection_query q n true w
           = Ok ((collection_query q n, false),
                 mkWorld c' (store_calls w ++ [(q, n)])) ∧
         LRU.put (cache_key q n) (collection_query q n) (query_cache w) = Ok c' ∧
         LRU.inv c' ∧ LRU.capacity c' = LRU.capacity (query_cache w)).
Proof.
  intros Hinv Hpos. destruct w as [c calls]. simpl in *.
  unfold cached_query. simpl.
  destruct (LRU.cache c !! cache_key q n) as [v|] eqn:Hv.
  - left. destruct (get_inv c (cache_key q n) Hinv)
      as (o & c1 & Hget & Hinv1 & Hcap1 & Hc1).
    destruct (get_hit c _ v (proj1 Hinv) Hv) as (r & _ & Hget').
    rewrite Hget' in Hget. injection Hget as <- <-. rewrite Hget'.
    eexists v, _. split; [done|]. split; [done|]. by simpl.
  - right. rewrite (get_miss c _ Hv). unfold do_query.
    destruct (put_inv c (cache_key q n) (collection_query q n) Hinv Hpos)
      as (c2 & Hput & Hinv2 & Hcap2).
    rewrite Hput. by exists c2.
Qed.

Lemma count_hits_accounting (queries : list string) (hits : nat) w :
  LRU.inv (query_cache w) → 1 <= LRU.capacity (query_cache w) →
  Workload.coherent collection_query w →
  ∃ hits' w',
    Workload.count_hits collection_query queries hits w = Ok (hits', w') ∧
    LRU.inv (query_cache w') ∧
    LRU.capacity (query_cache w') = LRU.capacity (query_cache w) ∧
    Workload.coherent collection_query w' ∧
    (hits' + length (store_calls w')
     = hits + length (store_calls w) + length queries)%nat ∧
    (size (LRU.cache (query_cache w')) + length (store_calls w)
     ≤ size (LRU.cache (query_cache w)) + length (store_calls w'))%nat.
Proof.
  revert hits w. induction queries as [|q queries IH]; intros hits w Hinv Hpos Hco.
  - exists hits, w. simpl. split; [done|]. split; [done|]. split; [done|].
    split; [done|]. split; lia.
  - cbn [Workload.count_hits].
    destruct (cached_query_answer collection_query w q 10 true
                Hinv Hpos Hco) as (hit0 & w0 & Hcq0 & Hco' & _).
    destruct (cached_query_cases w q 10 Hinv Hpos)
      as [(v & c' & Hv & Hcq & Hc & Hinv' & Hcap')
         |(c' & Hv & Hcq & Hput & Hinv' & Hcap')];
      rewrite Hcq in Hcq0 |- *; simplify_eq.
    + destruct (IH (Datatypes.S hits) (mkWorld c' (store_calls w)))
        as (h' & w' & Hrun & Hinv2 & Hcap2 & Hco2 & Hacc & Hsz);
        [done|simpl; lia|done|].
      exists h', w'. simpl in *. split; [done|]. split; [done|].
      split; [lia|]. split; [done|]. rewrite Hc in Hsz. lia.
    + destruct (IH hits (mkWorld c' (store_calls w ++ [(q, 10)])))
        as (h' & w' & Hrun & Hinv2 & Hcap2 & Hco2 & Hacc & Hsz);
        [done|simpl; lia|done|].
      exists h', w'. simpl in *. split; [done|]. split; [done|].
      split; [lia|]. split; [done|]. rewrite length_app in *. simpl in *.
      destruct (put_size (query_cache w) (cache_key q 10)
                  (collection_query q 10) Hinv Hpos) as (c2 & Hput2 & Hlen & _).
      rewrite Hput in Hput2. injection Hput2 as <-.
      rewrite Hv in Hlen. rewrite decide_False in Hlen by (by intros [? ?]).
      unfold LRU.len in Hlen. lia.
Qed.

(** X11: the counting loop, which starts by clearing the cache.  Every
    query is either a hit or one call to the store, so hits and store
    calls add up to the number of queries; the cache ends with at most
    [capacity] entries, none of which was stored without a call to the
    store, and each entry holds the store's answer for its query. *)
Theorem run_with_cache_accounting (queries : list string) w :
  1 <= LRU.capacity (query_cache w) →
  ∃ hits w',
    Workload.run_with_cache collection_query queries w = Ok (hits, w') ∧
    (hits + (length (store_calls w') - length (store_calls w))
     = length queries)%nat ∧
    (length (store_calls w) ≤ length (store_calls w'))%nat ∧
    LRU.len (query_cache w') <= LRU.capacity (query_cache w) ∧
    (size (LRU.cache (query_cache w'))
     ≤ length (store_calls w') - length (store_calls w))%nat ∧
    Workload.coherent collection_query w'.
Proof.
  intros Hpos. unfold Workload.run_with_cache.
  destruct (count_hits_accounting queries 0
              (mkWorld (LRU.clear (query_cache w)) (store_calls w)))
    as (h' & w' & Hrun & Hinv & Hcap & Hco & Hacc & Hsz); simpl.
  - apply inv_clear. lia.
  - done.
  - intros q n v. simpl. by rewrite lookup_empty.
  - exists h', w'. split; [done|]. simpl in *.
    rewrite map_size_empty in Hsz.
    destruct Hinv as [_ Hwc]. unfold LRU.within_capacity in Hwc.
    repeat split; try done; lia.
Qed.

End QueryLoops.

Section DistinctQueries.
Import CachedQuery.
Context {R : Type} (collection_query : string → Z → R).
Implicit Types (w : @world R) (q : string) (n : Z).

(** As many distinct keys as distinct queries. *)
Lemma distinct_keys (queries : list string) n :
  size (list_to_set (map (λ q, cache_key q n) queries) : gset string)
  = size (list_to_set queries : gset string).
Proof.
  induction queries as [|q queries IH]; [done|]. simpl.
  destruct (decide (q ∈ queries)) as [Hin|Hnin].
  - assert (cache_key q n ∈ map (λ q, cache_key q n) queries) as Hk.
    { apply list_elem_of_fmap. by exists q. }
    rewrite !subseteq_union_1_L; [done| |];
      apply singleton_subseteq_l; by apply elem_of_list_to_set.
  - assert (cache_key q n ∉ map (λ q, cache_key q n) queries) as Hk.
    { intros (q' & Heq & Hq')%list_elem_of_fmap.
      apply cache_key_inj in Heq as [-> _]. done. }
    rewrite !size_union, !size_singleton, IH; [done| |];
      apply disjoint_singleton_l; by rewrite elem_of_list_to_set.
Qed.

Lemma count_hits_without_eviction (queries : list string) (hits : nat) w :
  LRU.inv (query_cache w) → 1 <= LRU.capacity (query_cache w) →
  Z.of_nat (size (dom (LRU.cache (query_cache w))
                  ∪ list_to_set (map (λ q, cache_key q 10) queries)))
    <= LRU.capacity (query_cache w) →
  ∃ hits' w',
    Workload.count_hits collection_query queries hits w = Ok (hits', w') ∧
    dom (LRU.cache (query_cache w'))
      = dom (LRU.cache (query_cache w))
        ∪ list_to_set (map (λ q, cache_key q 10) queries) ∧
    (hits' + size (dom (LRU.cache (query_cache w')))
     = hits + length queries + size (dom (LRU.cache (query_cache w))))%nat ∧
    (length (store_calls w') + size (dom (LRU.cache (query_cache w)))
     = length (store_calls w) + size (dom (LRU.cache (query_cache w'))))%nat.
Proof.
  revert hits w.
  induction queries as [|q queries IH]; intros hits w Hinv Hpos Hroom.
  - exists hits, w. simpl. split; [done|]. split; [set_solver|]. split; lia.
  - cbn [Workload.count_hits]. simpl map in *. simpl list_to_set in *.
    set (keys := list_to_set (map (λ q, cache_key q 10) queries) : gset string)
      in *.
    set (k := cache_key q 10) in *.
    destruct (cached_query_cases collection_query w q 10 Hinv Hpos)
      as [(v & c' & Hv & Hcq & Hc & Hinv' & Hcap')
         |(c' & Hv & Hcq & Hput & Hinv' & Hcap')]; fold k in Hv, Hcq;
      rewrite Hcq.
    + assert (k ∈ dom (LRU.cache (query_cache w))) as Hk.
      { apply elem_of_dom. by eexists. }
      destruct (IH (Datatypes.S hits) (mkWorld c' (store_calls w)))
        as (h' & w' & Hrun & Hdom & Hacc & Hcalls).
      { done. }
      { simpl. lia. }
      { simpl. rewrite Hc, Hcap'. fold keys.
        etransitivity; [|exact Hroom]. apply inj_le, subseteq_size.
        set_solver. }
      exists h', w'. simpl in *. fold keys in Hdom. rewrite Hc in *.
      split; [done|]. split; [set_solver|]. split; lia.
    + assert (k ∉ dom (LRU.cache (query_cache w))) as Hk.
      { by apply not_elem_of_dom. }
      assert (LRU.len (query_cache w) < LRU.capacity (query_cache w)) as Hlt.
      { unfold LRU.len. rewrite <- size_dom.
        assert (size ({[k]} ∪ dom (LRU.cache (query_cache w)))
                ≤ size (dom (LRU.cache (query_cache w)) ∪ ({[k]} ∪ keys)))%nat
          as Hle by (apply subseteq_size; set_solver).
        rewrite size_union, size_singleton in Hle by set_solver. lia. }
      fold k in Hput. rewrite put_room in Hput by done.
      injection Hput as <-.
      destruct (IH hits
                  (mkWorld
                     (LRU.mkLRU (LRU.capacity (query_cache w))
                        (<[k := collection_query q 10]>
                           (LRU.cache (query_cache w)))
                        (LRU.usage_order (query_cache w) ++ [k]))
                     (store_calls w ++ [(q, 10)])))
        as (h' & w' & Hrun & Hdom & Hacc & Hcalls).
      { done. }
      { simpl. lia. }
      { simpl. fold keys. rewrite dom_insert_L.
        etransitivity; [|exact Hroom]. apply inj_le, subseteq_size.
        set_solver. }
      exists h', w'. simpl in *. fold keys in Hdom.
      rewrite dom_insert_L in *. rewrite length_app in *. simpl in *.
      split; [done|]. split; [set_solver|].
      rewrite size_union, size_singleton in * by set_solver.
      split; lia.
Qed.

(** The counting loop, as long as nothing is evicted, sends to the store
    the queries that are new, in the order of their first occurrence, and
    files the store's answer under the key of each. *)
Lemma count_hits_store_calls (queries seen : list string) (hits : nat) w pre :
  LRU.inv (query_cache w) → 1 <= LRU.capacity (query_cache w) →
  Z.of_nat (size (dom (LRU.cache (query_cache w))
                  ∪ list_to_set (map (λ q, cache_key q 10) queries)))
    <= LRU.capacity (query_cache w) →
  (∀ q, q ∈ seen ↔ cache_key q 10 ∈ dom (LRU.cache (query_cache w))) →
  (∀ q, q ∈ seen →
        LRU.cache (query_cache w) !! cache_key q 10
        = Some (collection_query q 10)) →
  store_calls w = pre ++ map (λ q, (q, 10)) seen →
  ∃ hits' w',
    Workload.count_hits collection_query queries hits w = Ok (hits', w') ∧
    store_calls w'
      = pre ++ map (λ q, (q, 10)) (fold_left push queries seen) ∧
    ∀ q, q ∈ fold_left push queries seen →
         LRU.cache (query_cache w') !! cache_key q 10
         = Some (collection_query q 10).
Proof.
  revert seen hits w.
  induction queries as [|q queries IH];
    intros seen hits w Hinv Hpos Hroom Hseen Hvals Hcalls.
  - exists hits, w. by simpl.
  - cbn [Workload.count_hits fold_left]. simpl map in *.
    simpl list_to_set in *.
    set (keys := list_to_set (map (λ q, cache_key q 10) queries) : gset string)
      in *.
    set (k := cache_key q 10) in *.
    destruct (cached_query_cases collection_query w q 10 Hinv Hpos)
      as [(v & c' & Hv & Hcq & Hc & Hinv' & Hcap')
         |(c' & Hv & Hcq & Hput & Hinv' & Hcap')]; fold k in Hv, Hcq;
      rewrite Hcq.
    + assert (q ∈ seen) as Hq.
      { apply Hseen. fold k. apply elem_of_dom. by eexists. }
      assert (push seen q = seen) as ->.
      { unfold push. apply mem_elem_of in Hq. by rewrite Hq. }
      apply (IH seen (Datatypes.S hits) (mkWorld c' (store_calls w))).
      * done.
      * simpl. lia.
      * simpl. rewrite Hc, Hcap'. fold keys.
        etransitivity; [|exact Hroom]. apply inj_le, subseteq_size.
        set_solver.
      * simpl. by rewrite Hc.
      * simpl. by rewrite Hc.
      * done.
    + assert (q ∉ seen) as Hq.
      { intros Hin. apply Hseen in Hin. fold k in Hin.
        apply elem_of_dom in Hin as [v Hin]. congruence. }
      assert (push seen q = seen ++ [q]) as ->.
      { unfold push. destruct (mem q seen) eqn:Hm; [|done].
        by apply mem_elem_of in Hm. }
      assert (k ∉ dom (LRU.cache (query_cache w))) as Hk.
      { by apply not_elem_of_dom. }
      assert (LRU.len (query_cache w) < LRU.capacity (query_cache w)) as Hlt.
      { unfold LRU.len. rewrite <- size_dom.
        assert (size ({[k]} ∪ dom (LRU.cache (query_cache w)))
                ≤ size (dom (LRU.cache (query_cache w)) ∪ ({[k]} ∪ keys)))%nat
          as Hle by (apply subseteq_size; set_solver).
        rewrite size_union, size_singleton in Hle by set_solver. lia. }
      fold k in Hput. rewrite put_room in Hput by done.
      injection Hput as <-.
      apply (IH (seen ++ [q]) hits).
      * done.
      * simpl. lia.
      * simpl. fold keys. rewrite dom_insert_L.
        etransitivity; [|exact Hroom]. apply inj_le, subseteq_size.
        set_solver.
      * intros q'. simpl. rewrite dom_insert_L, elem_of_app,
          list_elem_of_singleton, elem_of_union, elem_of_singleton.
        rewrite Hseen. split.
        -- intros [Hin| ->]; [by right|by left].
        -- intros [Heq|Hin]; [|by left]. right.
           by apply cache_key_inj in Heq as [-> _].
      * intros q' [Hin| ->%list_elem_of_singleton]%elem_of_app; simpl.
        -- rewrite lookup_insert_ne; [by apply Hvals|].
           intros Heq. apply cache_key_inj in Heq as [<- _]. done.
        -- fold k. by rewrite lookup_insert_eq.
      * simpl. rewrite Hcalls, map_app. simpl. by rewrite <- app_assoc.
Qed.

(** X12: when the queries of the counting loop have at most [capacity]
    distinct texts, nothing is evicted.  The store is asked each distinct
    query exactly once, in the order of first occurrence, and every
    repetition is a hit; afterwards the cache holds exactly the keys of
    the queries, each with the store's answer. *)
Theorem run_with_cache_distinct_queries (queries : list string) w :
  1 <= LRU.capacity (query_cache w) →
  Z.of_nat (size (list_to_set queries : gset string))
    <= LRU.capacity (query_cache w) →
  ∃ hits w',
    Workload.run_with_cache collection_query queries w = Ok (hits, w') ∧
    (hits + size (list_to_set queries : gset string) = length queries)%nat ∧
    store_calls w'
      = store_calls w ++ map (λ q, (q, 10)) (first_seen queries) ∧
    NoDup (first_seen queries) ∧
    (∀ q, q ∈ first_seen queries ↔ q ∈ queries) ∧
    dom (LRU.cache (query_cache w'))
      = list_to_set (map (λ q, cache_key q 10) queries) ∧
    (∀ q, q ∈ queries →
          LRU.cache (query_cache w') !! cache_key q 10
          = Some (collection_query q 10)) ∧
    LRU.len (query_cache w')
      = Z.of_nat (size (list_to_set queries : gset string)).
Proof.
  intros Hpos Hroom. unfold Workload.run_with_cache.
  set (w0 := mkWorld (LRU.clear (query_cache w)) (store_calls w)).
  assert (LRU.inv (query_cache w0)) as Hinv by (apply inv_clear; simpl; lia).
  assert (Z.of_nat (size (dom (LRU.cache (query_cache w0))
                          ∪ list_to_set (map (λ q, cache_key q 10) queries)))
          <= LRU.capacity (query_cache w0)) as Hroom0.
  { simpl. by rewrite dom_empty_L, union_empty_l_L, distinct_keys. }
  destruct (count_hits_without_eviction queries 0 w0 Hinv Hpos Hroom0)
    as (h' & w' & Hrun & Hdom & Hacc & _).
  destruct (count_hits_store_calls queries [] 0 w0 (store_calls w)
              Hinv Hpos Hroom0)
    as (h'' & w'' & Hrun' & Hcalls & Hvals).
  { intros q. simpl. rewrite dom_empty_L. set_solver. }
  { intros q Hq. by apply elem_of_nil in Hq. }
  { simpl. by rewrite app_nil_r. }
  rewrite Hrun in Hrun'. injection Hrun' as <- <-.
  exists h', w'. split; [done|]. simpl in Hdom, Hacc.
  rewrite dom_empty_L, union_empty_l_L in Hdom.
  rewrite dom_empty_L, size_empty in Hacc.
  rewrite Hdom, distinct_keys in Hacc.
  split; [lia|]. split; [exact Hcalls|].
  split; [apply first_seen_NoDup|].
  split; [apply first_seen_elem_of|].
  split; [exact Hdom|].
  split.
  - intros q Hq. apply Hvals. by apply first_seen_elem_of.
  - unfold LRU.len. by rewrite <- size_dom, Hdom, distinct_keys.
Qed.

End DistinctQueries.

(** * Further properties of weighted fusion *)

Section DictMore.
Context {V : Type}.
Implicit Types (d : Dict.t V) (k : string) (v : V).

Lemma dict_get_set_eq k v d : Dict.get k (Dict.set k v d) = Some v.
Proof.
  induction d as [|[k' v'] d IH]; simpl.
  - by rewrite String.eqb_refl.
  - destruct (String.eqb k k') eqn:E; simpl; rewrite ?E, ?String.eqb_refl; done.
Qed.

Lemma dict_get_set_ne k k' v d :
  k ≠ k' → Dict.get k' (Dict.set k v d) = Dict.get k' d.
Proof.
  intros Hne. induction d as [|[k0 v0] d IH]; simpl.
  - destruct (String.eqb_spec k' k); [congruence|done].
  - destruct (String.eqb_spec k k0) as [->|Hk]; simpl.
    + destruct (String.eqb_spec k' k0); [congruence|done].
    + by rewrite IH.
Qed.

Lemma dict_set_set k v1 v2 d :
  Dict.set k v2 (Dict.set k v1 d) = Dict.set k v2 d.
Proof.
  induction d as [|[k0 v0] d IH]; simpl.
  - by rewrite String.eqb_refl.
  - destruct (String.eqb k k0) eqn:E; simpl; rewrite ?E, ?String.eqb_refl.
    + done.
    + by rewrite IH.
Qed.

Lemma dict_set_new k v d :
  k ∉ Dict.keys d → Dict.set k v d = d ++ [(k, v)].
Proof.
  induction d as [|[k0 v0] d IH]; simpl; [done|].
  intros [Hne Hnin]%not_elem_of_cons.
  destruct (String.eqb_spec k k0); [done|]. by rewrite IH.
Qed.

Lemma dict_get_NoDup k v d :
  NoDup (Dict.keys d) → (k, v) ∈ d → Dict.get k d = Some v.
Proof.
  induction d as [|[k0 v0] d IH]; simpl; intros Hnd Hin.
  - by apply elem_of_nil in Hin.
  - apply NoDup_cons in Hnd as [Hk0 Hnd].
    apply elem_of_cons in Hin as [[= -> ->]|Hin].
    + by rewrite String.eqb_refl.
    + destruct (String.eqb_spec k k0) as [->|Hne]; [|by apply IH].
      exfalso. apply Hk0. apply list_elem_of_fmap. by exists (k0, v).
Qed.

End DictMore.

Section FusedScoreFacts.
Context {S : Type} `{Number S}.
Implicit Types (all : Dict.t (TextNode * Dict.t S))
               (l : list (NodeWithScore S)) (d name : string).

Lemma last_score_snoc d l n :
  last_score d (l ++ [n])
  = if String.eqb (node_id (node n)) d then Some (score n)
    else last_score d l.
Proof. unfold last_score. by rewrite fold_left_app. Qed.

(** What one node does to the entry of document [d]. *)
Lemma add_result_scores name w all n d :
  scores_of (Dict.get d (add_result name w all n))
  = if String.eqb (node_id (node n)) d
    then Dict.set name (num_mul (score n) w) (scores_of (Dict.get d all))
    else scores_of (Dict.get d all).
Proof.
  unfold add_result.
  destruct (String.eqb_spec (node_id (node n)) d) as [<-|Hne].
  - destruct (Dict.get _ all) as [[nd sc]|]; by rewrite dict_get_set_eq.
  - destruct (Dict.get (node_id (node n)) all) as [[nd sc]|];
      by rewrite dict_get_set_ne.
Qed.

(** What one list does to it. *)
Lemma accumulate_scores ws all name l d :
  scores_of (Dict.get d (accumulate ws all (name, l)))
  = match last_score d l with
    | Some s => Dict.set name (num_mul s (weight_of ws name))
                         (scores_of (Dict.get d all))
    | None => scores_of (Dict.get d all)
    end.
Proof.
  unfold accumulate. simpl.
  induction l as [|n l IH] using rev_ind; [done|].
  rewrite fold_left_app, last_score_snoc. simpl.
  rewrite add_result_scores, IH.
  destruct (String.eqb (node_id (node n)) d); [|done].
  destruct (last_score d l); [by rewrite dict_set_set|done].
Qed.

Lemma accumulate_score_keys ws all name l d x :
  x ∈ Dict.keys (scores_of (Dict.get d (accumulate ws all (name, l)))) →
  x ∈ Dict.keys (scores_of (Dict.get d all)) ∨ x = name.
Proof.
  rewrite accumulate_scores. destruct (last_score d l); [|by left].
  rewrite dict_set_keys. apply push_elem_of.
Qed.

Lemma fold_accumulate_values ws named all d :
  NoDup (map fst named) →
  (∀ x, x ∈ map fst named →
        x ∉ Dict.keys (scores_of (Dict.get d all))) →
  Dict.values (scores_of (Dict.get d (fold_left (accumulate ws) named all)))
  = Dict.values (scores_of (Dict.get d all)) ++ contributions ws named d.
Proof.
  revert all. induction named as [|[name l] named IH]; intros all Hnd Hnew.
  - simpl. by rewrite app_nil_r.
  - simpl in *. apply NoDup_cons in Hnd as [Hname Hnd].
    rewrite IH; [|done|].
    + rewrite accumulate_scores.
      destruct (last_score d l) as [s|]; [|done]. simpl.
      rewrite dict_set_new by (apply Hnew, elem_of_cons; by left).
      unfold Dict.values. rewrite map_app. simpl. by rewrite <- app_assoc.
    + intros x Hx Hin. apply accumulate_score_keys in Hin as [Hin| ->].
      * apply (Hnew x); [apply elem_of_cons; by right|done].
      * done.
Qed.

Lemma fuse_score
    (named : list (string * list (NodeWithScore S))) (ws : Dict.t S)
    (x : NodeWithScore S) :
  NoDup (map fst named) →
  x ∈ fuse named ws →
  score x = sum (contributions ws named (node_id (node x))).
Proof.
  intros Hnd Hx. unfold fuse in Hx. apply sorted_desc_nodes in Hx.
  set (all := fold_left (accumulate ws) named []) in *.
  assert (well_keyed all) as Hwk.
  { apply fold_accumulate_well_keyed. constructor. }
  assert (NoDup (Dict.keys all)) as Hkeys.
  { unfold all. rewrite fold_accumulate_keys. apply fold_push_NoDup.
    constructor. }
  unfold final_results in Hx.
  apply list_elem_of_fmap in Hx as ([k [nd sc]] & -> & Hitem). simpl.
  unfold well_keyed in Hwk. rewrite Forall_forall in Hwk.
  pose proof (Hwk _ Hitem) as Hk. simpl in Hk. rewrite Hk.
  pose proof (dict_get_NoDup _ _ _ Hkeys Hitem) as Hget.
  pose proof (fold_accumulate_values ws named [] k Hnd) as Hval.
  fold all in Hval. rewrite Hget in Hval. simpl in Hval.
  rewrite Hval; [done|]. intros y _ Hy. by apply elem_of_nil in Hy.
Qed.

Lemma first_seen_length_le (ids : list string) :
  (length (first_seen ids) ≤ length ids)%nat.
Proof.
  unfold first_seen.
  assert (∀ seen, length (fold_left push ids seen)
                  ≤ length seen + length ids)%nat as Hgen.
  { induction ids as [|i ids IH]; intros seen; simpl; [lia|].
    etransitivity; [apply IH|]. unfold push.
    destruct (mem i seen); rewrite ?length_app; simpl; lia. }
  apply (Hgen []).
Qed.

Lemma fuse_bounded
    (named : list (string * list (NodeWithScore S))) (ws : Dict.t S) :
  (length (fuse named ws) ≤ length (candidate_ids named))%nat ∧
  ∀ x, x ∈ fuse named ws → node_id (node x) ∈ candidate_ids named.
Proof.
  unfold fuse. split.
  - rewrite sorted_desc_length.
    rewrite <- (length_map (λ n, node_id (node n))).
    fold (ids_of (final_results (fold_left (accumulate ws) named []))).
    rewrite unsorted_ids. apply first_seen_length_le.
  - intros x Hx. apply sorted_desc_nodes in Hx.
    apply first_seen_elem_of. rewrite <- (unsorted_ids ws).
    unfold ids_of. apply list_elem_of_fmap. by exists x.
Qed.

Lemma fold_add_result_distinct name w l all :
  NoDup (ids_of l) →
  (∀ i, i ∈ ids_of l → i ∉ Dict.keys all) →
  fold_left (add_result name w) l all
  = all ++ map (λ n, (node_id (node n),
                      (node n, [(name, num_mul (score n) w)]))) l.
Proof.
  revert all. induction l as [|n l IH]; intros all Hnd Hnew; simpl.
  - by rewrite app_nil_r.
  - simpl in Hnd. apply NoDup_cons in Hnd as [Hn Hnd].
    assert (node_id (node n) ∉ Dict.keys all) as Hnin.
    { apply Hnew. simpl. apply elem_of_cons. by left. }
    assert (add_result name w all n
            = all ++ [(node_id (node n),
                       (node n, [(name, num_mul (score n) w)]))]) as ->.
    { unfold add_result.
      assert (Dict.get (node_id (node n)) all = None) as ->.
      { apply dict_get_mem. destruct (mem _ _) eqn:E; [|done].
        by apply mem_elem_of in E. }
      by apply dict_set_new. }
    rewrite IH; [by rewrite <- app_assoc|done|].
    intros i Hi. unfold Dict.keys. rewrite map_app. simpl.
    rewrite elem_of_app, list_elem_of_singleton. intros [Hin| ->].
    + apply (Hnew i); [simpl; apply elem_of_cons; by right|done].
    + done.
Qed.

Lemma fuse_single_list name (l : list (NodeWithScore S)) (ws : Dict.t S) :
  NoDup (ids_of l) →
  fuse [(name, l)] ws = sorted_desc (map (rescale (weight_of ws name)) l).
Proof.
  intros Hnd. unfold fuse. simpl. unfold accumulate. simpl.
  rewrite fold_add_result_distinct; [|done|].
  - simpl. unfold final_results. rewrite map_map. done.
  - intros i _ Hi. by apply elem_of_nil in Hi.
Qed.

End FusedScoreFacts.

Section FusionRetrieverMore.
Context {S : Type} `{Number S} `{Collaborators S}.

Lemma answers_names query (rs : Dict.t (Retriever S)) named :
  answers query rs named → map fst rs = map fst named.
Proof.
  induction 1 as [|[n r] [n' l] rs named [Hn _] _ IH]; simpl; [done|].
  simpl in Hn. by rewrite Hn, IH.
Qed.

Lemma contributions_length (ws : Dict.t S)
    (named : list (string * list (NodeWithScore S))) d :
  (length (contributions ws named d) ≤ length named)%nat.
Proof.
  unfold contributions. induction named as [|nl named IH]; simpl; [done|].
  rewrite length_app. destruct (last_score d (snd nl)); simpl; lia.
Qed.

Lemma sum_of_at_most_two (values : list S) :
  (length values ≤ 2)%nat → sum values = fold_left num_add values num_zero.
Proof.
  destruct values as [|a [|b [|c values]]]; simpl; [done|done|done|lia].
Qed.

(** X13: the fused score.  The score of every node that the fusion
    retriever returns is Python's [sum] of [raw score * weight] over the
    retrievers whose list contains the document, in the order of the
    retrievers (a weight that is not given counts as 1); a retriever that
    does not return the document adds nothing.  With at most two
    retrievers, as in the pipeline, that is 0 plus the first product plus
    the second; beyond two values it is the interpreter's summation,
    which for floats is not the chain of additions. *)
Theorem fused_score_is_weighted_sum
    (rs : Dict.t (Retriever S)) (ws : Dict.t S) (query : string)
    (named : list (string * list (NodeWithScore S))) :
  NoDup (Dict.keys rs) → answers query rs named →
  ∃ out evs,
    retrieve (WeightedFusionRetriever rs ws) query = (Ok out, evs) ∧
    ∀ x, x ∈ out →
         score x = sum (contributions ws named (node_id (node x))) ∧
         ((length rs ≤ 2)%nat →
          score x = fold_left num_add
                      (contributions ws named (node_id (node x))) num_zero).
Proof.
  intros Hnd Hans. destruct (fusion_retrieve rs ws query named Hans) as [evs Hr].
  exists (fuse named ws), evs. split; [done|]. intros x Hx.
  assert (score x = sum (contributions ws named (node_id (node x)))) as Hsum.
  { apply fuse_score; [|done].
    unfold Dict.keys in Hnd. by rewrite (answers_names _ _ _ Hans) in Hnd. }
  split; [exact Hsum|]. intros Hlen. rewrite Hsum.
  apply sum_of_at_most_two.
  pose proof (contributions_length ws named (node_id (node x))) as Hc.
  pose proof (Forall2_length _ _ _ Hans) as Hl. lia.
Qed.

(** X14: the fusion retriever returns at most as many nodes as its
    retrievers returned together, and every node it returns carries the
    id of a node that some retriever returned. *)
Theorem fusion_bounded_by_candidates
    (rs : Dict.t (Retriever S)) (ws : Dict.t S) (query : string)
    (named : list (string * list (NodeWithScore S))) :
  answers query rs named →
  ∃ out evs,
    retrieve (WeightedFusionRetriever rs ws) query = (Ok out, evs) ∧
    (length out ≤ length (candidate_ids named))%nat ∧
    ∀ x, x ∈ out → node_id (node x) ∈ candidate_ids named.
Proof.
  intros Hans. destruct (fusion_retrieve rs ws query named Hans) as [evs Hr].
  exists (fuse named ws), evs. split; [done|]. apply fuse_bounded.
Qed.

(** X15: a fusion retriever over a single retriever that returns distinct
    documents keeps every node, gives it the score
    [0 + raw score * weight], and sorts by that score, descending and
    stable. *)
Theorem fusion_of_single_retriever
    (name : string) (r : Retriever S) (ws : Dict.t S) (query : string)
    (l : list (NodeWithScore S)) (evs : list event) :
  retrieve r query = (Ok l, evs) → NoDup (ids_of l) →
  ∃ evs',
    retrieve (WeightedFusionRetriever [(name, r)] ws) query
    = (Ok (sorted_desc (map (rescale (weight_of ws name)) l)), evs').
Proof.
  intros Hr Hnd.
  destruct (fusion_retrieve [(name, r)] ws query [(name, l)]) as [evs' Hf].
  { constructor; [|constructor]. split; [done|]. by exists evs. }
  exists evs'. by rewrite Hf, fuse_single_list.
Qed.

End FusionRetrieverMore.

(** * Further properties of reranking *)

Section RerankMore.
Context {S : Type} `{Number S} `{Collaborators S}.
Implicit Types (cands out : list (NodeWithScore S)).

Lemma StronglySorted_take {A : Type} (R : A → A → Prop) (l : list A) n :
  StronglySorted R l → StronglySorted R (take n l).
Proof.
  intros Hl. revert n. induction Hl as [|x l Hl IH Hx]; intros [|n]; simpl;
    try constructor; [apply IH|by apply Forall_take].
Qed.

Lemma slice_to_sorted {A : Type} (R : A → A → Prop) (l : list A) k :
  StronglySorted R l → StronglySorted R (slice_to l k).
Proof.
  intros Hl. unfold slice_to. destruct (0 <=? k); by apply StronglySorted_take.
Qed.

Lemma slice_to_all {A : Type} (l : list A) k :
  Z.of_nat (length l) <= k → slice_to l k = l.
Proof.
  intros Hk. unfold slice_to. destruct (Z.leb_spec 0 k); [|lia].
  apply take_ge. lia.
Qed.

(** X16: what the reranker returns is sorted by the model's score,
    largest first. *)
Theorem rerank_output_sorted `{!StrictWeak S}
    (base : Retriever S) query cands evs0 fetch_k top_k out evs :
  retrieve base query = (Ok cands, evs0) →
  retrieve (RerankedRetriever base fetch_k top_k) query = (Ok out, evs) →
  StronglySorted not_below out.
Proof.
  intros Hb. rewrite (retrieve_reranked _ _ _ _ _ _ Hb).
  destruct (decide (slice_to cands fetch_k = [])) as [Hs|Hs].
  - rewrite rerank_empty by done. intros [= <- _]. constructor.
  - rewrite rerank_nonempty by done.
    destruct (predict _) as [scores|]; [|done]. cbn.
    intros [= <- _]. destruct (top_k =? 0).
    + apply sorted_desc_sorted.
    + apply slice_to_sorted, sorted_desc_sorted.
Qed.

(** X17: reranking replaces scores and reorders, nothing else.  When
    the model returns one score per pair and [top_k] does not cut
    ([top_k = 0], or at least as large as the number of candidates
    kept), the reranker returns exactly the first [fetch_k] candidates,
    each with the score the model gave to its pair, in some order. *)
Theorem rerank_keeps_candidates_with_model_scores
    (base : Retriever S) query cands evs0 fetch_k top_k scores :
  retrieve base query = (Ok cands, evs0) →
  predict (model_input query cands fetch_k) = Some scores →
  length scores = length (slice_to cands fetch_k) →
  top_k = 0 ∨ Z.of_nat (length (slice_to cands fetch_k)) <= top_k →
  ∃ out evs,
    retrieve (RerankedRetriever base fetch_k top_k) query = (Ok out, evs) ∧
    out ≡ₚ zip_with (λ n s, mkNodeWithScore (node n) s)
                    (slice_to cands fetch_k) scores ∧
    map node out ≡ₚ map node (slice_to cands fetch_k) ∧
    map score out ≡ₚ scores.
Proof.
  intros Hb Hp Hlen Htk. rewrite (retrieve_reranked _ _ _ _ _ _ Hb).
  set (kept := slice_to cands fetch_k) in *.
  set (zipped := zip_with (λ n s, mkNodeWithScore (node n) s) kept scores).
  assert (map node zipped = map node kept ∧ map score zipped = scores)
    as [Hnodes Hscores].
  { unfold zipped. clear -Hlen. revert scores Hlen.
    induction kept as [|n kept IH]; intros [|s scores] Hlen; simpl in *;
      try done.
    destruct (IH scores) as [Hn Hs]; [lia|]. by rewrite Hn, Hs. }
  destruct (decide (kept = [])) as [Hs|Hs].
  - rewrite rerank_empty by done. eexists _, _. split; [done|].
    rewrite <- Hscores, <- Hnodes. unfold zipped. rewrite Hs. by simpl.
  - rewrite rerank_nonempty by done. fold kept. rewrite Hp. cbn zeta.
    fold zipped.
    assert ((if top_k =? 0 then sorted_desc zipped
             else slice_to (sorted_desc zipped) top_k) = sorted_desc zipped)
      as ->.
    { destruct (Z.eqb_spec top_k 0) as [|Hne]; [done|].
      apply slice_to_all. rewrite sorted_desc_length. unfold zipped.
      rewrite length_zip_with. destruct Htk; [done|lia]. }
    eexists _, _. split; [done|]. simpl.
    split; [apply sorted_desc_perm|].
    by rewrite <- Hnodes, <- Hscores, !sorted_desc_perm.
Qed.

End RerankMore.

(** * Further properties of the pipeline *)

Section PipelineMore.
Context {S : Type} `{Number S} `{Collaborators S}.

Lemma rerank_calls query (cands : list (NodeWithScore S)) fetch_k top_k :
  ∃ r tail,
    rerank query cands fetch_k top_k = (r, tail) ∧
    ((tail = [] ∧ r = Ok []) ∨
     (tail = [CallPredict (model_input query cands fetch_k)] ∧
      (r = Raise ModelError ∨ ∃ out, r = Ok out))).
Proof.
  destruct (decide (slice_to cands fetch_k = [])) as [Hs|Hs].
  - rewrite rerank_empty by done. eexists _, _. split; [done|]. by left.
  - rewrite rerank_nonempty by done.
    destruct (predict _) as [scores|]; eexists _, _; (split; [done|]); right;
      (split; [done|]); [right; by eexists|by left].
Qed.

(** The base retriever that [build] chooses either answers, after the
    calls of [retriever_calls], or stops at the first library retriever
    that raises. *)
Lemma chosen_base_outcome (c : Config S) nodes query :
  ∃ r evs,
    retrieve (chosen_base c nodes) query = (r, evs) ∧
    ((∃ cands, r = Ok cands ∧ evs = retriever_calls c query) ∨
     (∃ e, r = Raise e ∧ evs ≠ [] ∧ evs `prefix_of` retriever_calls c query ∧
           ((last evs = Some (CallBM25 query) ∧
             bm25_retrieve nodes (top_k c) query = Raise e) ∨
            (last evs = Some (CallVector query) ∧
             vector_retrieve nodes (top_k c) query = Raise e)))).
Proof.
  rewrite chosen_base_retrieve. unfold retriever_calls.
  destruct (use_bm25 c).
  - destruct (use_hybrid c && use_vector c).
    + destruct (bm25_retrieve nodes (top_k c) query) as [l1|e] eqn:H1.
      * destruct (vector_retrieve nodes (top_k c) query) as [l2|e] eqn:H2.
        -- eexists _, _. split; [done|]. left. by eexists.
        -- eexists _, _. split; [done|]. right. exists e.
           split; [done|]. split; [done|]. split; [done|]. by right.
      * eexists _, _. split; [done|]. right. exists e.
        split; [done|]. split; [done|].
        split; [by exists [CallVector query]|]. by left.
    + destruct (bm25_retrieve nodes (top_k c) query) as [l1|e] eqn:H1.
      * eexists _, _. split; [done|]. left. by eexists.
      * eexists _, _. split; [done|]. right. exists e.
        split; [done|]. split; [done|]. split; [done|]. by left.
  - destruct (vector_retrieve nodes (top_k c) query) as [l2|e] eqn:H2.
    + eexists _, _. split; [done|]. left. by eexists.
    + eexists _, _. split; [done|]. right. exists e.
      split; [done|]. split; [done|]. split; [done|]. by right.
Qed.

(** X18: what one call of [retrieve] on a built pipeline does.  The
    library retrievers that the pipeline uses are called in order, BM25
    before the vector index, each at most once, and the calls stop at the
    first retriever that raises: its exception is the result.  When every
    retriever has answered, each has been called exactly once; the model
    is then called at most once, after the retrievers and only when
    reranking is enabled, and the only exception left is the model's. *)
Theorem built_pipeline_call_sequence
    (c : Config S) nodes self query (w : World) :
  build (new_pipeline c) nodes = Ok self →
  ∃ r w' evs,
    pipeline_retrieve self query w = (r, w') ∧
    trace w' = trace w ++ evs ∧
    ((∃ tail,
        evs = retriever_calls c query ++ tail ∧
        (tail = [] ∨
         (use_reranking c = true ∧ ∃ pairs, tail = [CallPredict pairs])) ∧
        ((∃ results elapsed, r = Ok (results, elapsed)) ∨
         (r = Raise ModelError ∧ use_reranking c = true ∧ tail ≠ []))) ∨
     (∃ e,
        r = Raise e ∧ evs ≠ [] ∧ evs `prefix_of` retriever_calls c query ∧
        ((last evs = Some (CallBM25 query) ∧
          bm25_retrieve nodes (top_k c) query = Raise e) ∨
         (last evs = Some (CallVector query) ∧
          vector_retrieve nodes (top_k c) query = Raise e)))).
Proof.
  intros Hb. apply build_ok_shape in Hb as [_ ->].
  destruct (chosen_base_outcome c nodes query)
    as (r0 & evs0 & Hr & [(cands & -> & ->)|(e & -> & Hfail)]).
  - unfold pipeline_retrieve. cbn [pipeline].
    destruct (use_reranking c) eqn:Hrr.
    + rewrite (retrieve_reranked _ _ _ _ _ _ Hr).
      destruct (rerank_calls query cands (rerank_top_k c) (top_k c))
        as (r & tail & -> & [[-> ->]|[-> [->|[out ->]]]]); simpl.
      * eexists _, _, _. split; [done|]. simpl. split; [done|]. left.
        exists []. split; [done|]. split; [by left|]. left. by eexists _, _.
      * eexists _, _, _. split; [done|]. simpl. split; [done|]. left.
        eexists [_]. split; [done|].
        split; [right; split; [done|by eexists]|]. by right.
      * eexists _, _, _. split; [done|]. simpl. split; [done|]. left.
        eexists [_]. split; [done|].
        split; [right; split; [done|by eexists]|]. left. by eexists _, _.
    + rewrite Hr. eexists _, _, _. split; [done|]. simpl. split; [done|].
      left. exists []. rewrite app_nil_r. split; [done|].
      split; [by left|]. left. by eexists _, _.
  - assert (retrieve (if use_reranking c
                      then RerankedRetriever (chosen_base c nodes)
                             (rerank_top_k c) (top_k c)
                      else chosen_base c nodes) query = (Raise e, evs0))
      as Hp.
    { destruct (use_reranking c); [|done].
      cbn [retrieve]. by rewrite Hr. }
    unfold pipeline_retrieve. cbn [pipeline]. rewrite Hp.
    eexists _, _, _. split; [done|]. simpl. split; [done|]. right.
    by exists e.
Qed.


(** X22: when both retrievers are enabled but [use_hybrid] is off, the
    pipeline is BM25 alone.  Provided the library creates both
    retrievers, [build] installs the BM25 retriever; the vector index,
    although created, is never queried, and when the BM25 retriever
    answers, its ranking is returned unchanged. *)
Theorem hybrid_off_uses_bm25_only
    (vw bw : S) (k rk : Z) nodes query (w : World) ranking :
  bm25_from_defaults nodes k = Ok tt →
  vector_index nodes k = Ok tt →
  bm25_retrieve nodes k query = Ok ranking →
  ∃ self,
    build (new_pipeline (mkConfig true true false false vw bw k rk)) nodes
      = Ok self ∧
    pipeline self = Some (BM25Retriever nodes k) ∧
    ∃ elapsed,
      pipeline_retrieve self query w
      = (Ok (ranking, elapsed),
         mkWorld (trace w ++ [CallBM25 query]) (ticks w + 2)%nat).
Proof.
  intros Hb Hv Hq. rewrite build_eq. unfold chosen_base.
  cbn [use_bm25 use_vector use_hybrid use_reranking top_k orb andb].
  rewrite Hb, Hv.
  eexists. split; [reflexivity|]. split; [reflexivity|].
  unfold pipeline_retrieve. cbn [pipeline retrieve]. rewrite Hq.
  eexists. reflexivity.
Qed.

(** X20: with reranking enabled, [top_k > 0] and [rerank_top_k >= 0], a
    built pipeline returns at most [min(rerank_top_k, top_k)] nodes, and
    so at most [top_k], whichever retrievers are enabled. *)
Theorem reranked_pipeline_returns_at_most_top_k
    (c : Config S) nodes self query (w w' : World) results elapsed :
  build (new_pipeline c) nodes = Ok self →
  use_reranking c = true → 0 < top_k c → 0 <= rerank_top_k c →
  pipeline_retrieve self query w = (Ok (results, elapsed), w') →
  Z.of_nat (length results) <= Z.min (rerank_top_k c) (top_k c).
Proof.
  intros Hb Hrr Hk Hrk. apply build_ok_shape in Hb as [_ ->].
  rewrite Hrr. unfold pipeline_retrieve. cbn [pipeline retrieve].
  destruct (retrieve (chosen_base c nodes) query) as [[cands|e] evs0];
    unfold bind; [|done].
  destruct (rerank query cands (rerank_top_k c) (top_k c)) as [r tail] eqn:Hre.
  destruct r as [out|e]; [|done]. intros [= <- _ _].
  destruct (rerank_output _ _ _ _ _ _ Hre) as (_ & _ & Hmin). by apply Hmin.
Qed.

End PipelineMore.

(** * Properties of the comparison of configurations *)

Section ComparisonFacts.
Context {S : Type} `{Number S} `{Collaborators S}.
Context (default_vector_weight default_bm25_weight : S) (is_zero : S → bool).

Lemma run_all_step name (c : Config S) cs nodes base query (w : World)
    cands calls results :
  build (new_pipeline c) nodes = Ok (mkPipeline c (Some base)) →
  retrieve base query = (Ok cands, calls) →
  Comparison.run_all ((name, c) :: cs) nodes query results w
  = Comparison.run_all cs nodes query
      (Dict.set name (Comparison.measured (ticks w), cands) results)
      (mkWorld (trace w ++ calls) (ticks w + 2)%nat).
Proof.
  intros Hb Hr. cbn [Comparison.run_all]. rewrite Hb.
  unfold pipeline_retrieve. cbn [pipeline]. by rewrite Hr.
Qed.

Lemma run_all_build_raises name (c : Config S) cs nodes query (w : World)
    e results :
  build (new_pipeline c) nodes = Raise e →
  Comparison.run_all ((name, c) :: cs) nodes query results w = (Comparison.Raised e, w).
Proof. intros Hb. cbn [Comparison.run_all]. by rewrite Hb. Qed.

Lemma run_all_retrieve_raises name (c : Config S) cs nodes base query
    (w : World) e calls results :
  build (new_pipeline c) nodes = Ok (mkPipeline c (Some base)) →
  retrieve base query = (Raise e, calls) →
  Comparison.run_all ((name, c) :: cs) nodes query results w
  = (Comparison.Raised e, mkWorld (trace w ++ calls) (ticks w + 1)%nat).
Proof.
  intros Hb Hr. cbn [Comparison.run_all]. rewrite Hb.
  unfold pipeline_retrieve. cbn [pipeline]. by rewrite Hr.
Qed.


End ComparisonFacts.

(** * The further statements on concrete caches and queries *)

Section CacheSamples.
Import Sample.
Local Open Scope string_scope.
Local Open Scope list_scope.

Lemma one_entry_inv : LRU.inv one_entry.
Proof.
  destruct (run_inv fill_one (LRU.init (K:=string) (V:=Z) 2))
    as (c & Hrun & Hinv & _); [apply inv_init; lia|simpl; lia|].
  by injection Hrun as <-.
Qed.

Lemma two_entries_inv : LRU.inv two_entries.
Proof.
  destruct (run_inv fill_two (LRU.init (K:=string) (V:=Z) 2))
    as (c & Hrun & Hinv & _); [apply inv_init; lia|simpl; lia|].
  by injection Hrun as <-.
Qed.

Lemma fresh_world_coherent : Workload.coherent store fresh_world.
Proof. intros q n v. simpl. by rewrite lookup_empty. Qed.

Lemma fresh_world_inv : LRU.inv (CachedQuery.query_cache fresh_world).
Proof. apply inv_init. lia. Qed.

Lemma lru_put_then_get_witness :
  LRU.inv one_entry ∧ 1 <= LRU.capacity one_entry ∧
  ∃ c' c'', LRU.put "b" 2 one_entry = Ok c' ∧
            LRU.get "b" c' = Ok (Some 2, c'') ∧
            LRU.cache c'' = LRU.cache c'.
Proof.
  split; [exact one_entry_inv|]. split; [simpl; lia|].
  apply (lru_put_then_get one_entry "b" 2); [exact one_entry_inv|simpl; lia].
Defined.

Lemma lru_put_other_keys_witness :
  LRU.put "c" 3 two_entries
    = Ok (LRU.mkLRU 2 (<["c" := 3]> (delete "a" (LRU.cache two_entries)))
                    ["b"; "c"]) ∧
  "b" ≠ "c" ∧
  (LRU.cache (LRU.mkLRU 2 (<["c" := 3]> (delete "a" (LRU.cache two_entries)))
                        ["b"; "c"]) !! "b"
   = LRU.cache two_entries !! "b" ∨
   (LRU.cache two_entries !! "c" = None ∧
    LRU.capacity two_entries <= LRU.len two_entries ∧
    head (LRU.usage_order two_entries) = Some "b" ∧
    LRU.cache (LRU.mkLRU 2 (<["c" := 3]> (delete "a" (LRU.cache two_entries)))
                         ["b"; "c"]) !! "b" = None)).
Proof.
  split; [reflexivity|]. split; [done|].
  apply (lru_put_other_keys two_entries "c" 3); [reflexivity|done].
Defined.

Lemma lru_put_size_witness :
  LRU.inv two_entries ∧ 1 <= LRU.capacity two_entries ∧
  ∃ c', LRU.put "c" 3 two_entries = Ok c' ∧
        LRU.len c' =
          (if decide (is_Some (LRU.cache two_entries !! "c"))
           then LRU.len two_entries
           else Z.min (LRU.capacity two_entries) (LRU.len two_entries + 1)) ∧
        (is_Some (LRU.cache two_entries !! "c") ∨
         LRU.len two_entries < LRU.capacity two_entries →
         dom (LRU.cache two_entries) ⊆ dom (LRU.cache c')).
Proof.
  split; [exact two_entries_inv|]. split; [simpl; lia|].
  apply (lru_put_size two_entries "c" 3); [exact two_entries_inv|simpl; lia].
Defined.

Lemma lru_get_behaviour_witness :
  LRU.inv two_entries ∧
  ∃ c', LRU.get "a" two_entries = Ok (LRU.cache two_entries !! "a", c') ∧
        LRU.cache c' = LRU.cache two_entries ∧
        LRU.capacity c' = LRU.capacity two_entries ∧
        LRU.usage_order c' =
          (if decide (is_Some (LRU.cache two_entries !! "a"))
           then filter (λ x, x ≠ "a") (LRU.usage_order two_entries) ++ ["a"]
           else LRU.usage_order two_entries).
Proof.
  split; [exact two_entries_inv|].
  apply (lru_get_behaviour two_entries "a"). exact two_entries_inv.
Defined.

Lemma lru_nonpositive_capacity_put_raises_witness :
  -1 <= 0 ∧
  LRU.put "a" 1 (LRU.init (K:=string) (V:=Z) (-1)) = Raise IndexError.
Proof.
  split; [lia|]. apply (lru_nonpositive_capacity_put_raises (-1) "a" 1). lia.
Defined.

Lemma lru_full_put_evicts_head_witness :
  LRU.inv two_entries ∧ 1 <= LRU.capacity two_entries ∧
  LRU.len two_entries = LRU.capacity two_entries ∧
  LRU.cache two_entries !! "c" = None ∧
  ∃ lru rest c',
    LRU.usage_order two_entries = lru :: rest ∧
    LRU.put "c" 3 two_entries = Ok c' ∧
    LRU.usage_order c' = rest ++ ["c"] ∧
    dom (LRU.cache c') = {["c"]} ∪ dom (LRU.cache two_entries) ∖ {[lru]} ∧
    lru ∉ dom (LRU.cache c').
Proof.
  split; [exact two_entries_inv|]. split; [simpl; lia|].
  split; [reflexivity|]. split; [reflexivity|].
  apply (lru_full_put_evicts_head two_entries "c" 3);
    [exact two_entries_inv|simpl; lia|reflexivity|reflexivity].
Defined.

Lemma lru_recent_key_survives_witness :
  LRU.inv two_entries ∧ 1 <= LRU.capacity two_entries ∧
  last (LRU.usage_order two_entries) = Some "b" ∧
  ("b" ∉ ({["c"]} : gset string)) ∧
  Z.of_nat (size ({["c"]} : gset string)) <= LRU.capacity two_entries - 1 ∧
  Forall (touches_only {["c"]}) calls_on_c ∧
  ∃ c', LRU.run calls_on_c two_entries = Ok c' ∧
        LRU.cache c' !! "b" = LRU.cache two_entries !! "b" ∧
        is_Some (LRU.cache c' !! "b").
Proof.
  assert ("b" ∉ ({["c"]} : gset string)) as Hb by set_solver.
  assert (Z.of_nat (size ({["c"]} : gset string))
          <= LRU.capacity two_entries - 1) as Hsz.
  { rewrite size_singleton. simpl. lia. }
  assert (Forall (touches_only (V:=Z) {["c"]}) calls_on_c) as Hops.
  { repeat constructor; simpl; set_solver. }
  split; [exact two_entries_inv|]. split; [simpl; lia|].
  split; [reflexivity|]. split; [exact Hb|]. split; [exact Hsz|].
  split; [exact Hops|].
  apply (lru_recent_key_survives two_entries "b" {["c"]} calls_on_c);
    [exact two_entries_inv|simpl; lia|reflexivity|exact Hb|exact Hsz
    |exact Hops].
Defined.

Lemma cached_query_returns_store_answer_witness :
  LRU.inv (CachedQuery.query_cache fresh_world) ∧
  1 <= LRU.capacity (CachedQuery.query_cache fresh_world) ∧
  Workload.coherent store fresh_world ∧
  ∃ hit w',
    CachedQuery.cached_query store "x" 3 true fresh_world
      = Ok ((store "x" 3, hit), w') ∧
    Workload.coherent store w' ∧
    LRU.inv (CachedQuery.query_cache w') ∧
    LRU.capacity (CachedQuery.query_cache w')
      = LRU.capacity (CachedQuery.query_cache fresh_world).
Proof.
  split; [exact fresh_world_inv|]. split; [simpl; lia|].
  split; [exact fresh_world_coherent|].
  apply (cached_query_returns_store_answer store fresh_world "x" 3 true);
    [exact fresh_world_inv|simpl; lia|exact fresh_world_coherent].
Defined.

Lemma cached_query_hit_iff_stored_witness :
  LRU.inv (CachedQuery.query_cache fresh_world) ∧
  1 <= LRU.capacity (CachedQuery.query_cache fresh_world) ∧
  ∃ r hit w',
    CachedQuery.cached_query store "x" 3 true fresh_world
      = Ok ((r, hit), w') ∧
    (hit = true ↔
     is_Some (LRU.cache (CachedQuery.query_cache fresh_world)
                !! CachedQuery.cache_key "x" 3)) ∧
    CachedQuery.store_calls w'
      = CachedQuery.store_calls fresh_world
        ++ (if hit then [] else [("x", 3)]) ∧
    LRU.cache (CachedQuery.query_cache w') !! CachedQuery.cache_key "x" 3
      = Some r.
Proof.
  split; [exact fresh_world_inv|]. split; [simpl; lia|].
  apply (cached_query_hit_iff_stored store fresh_world "x" 3);
    [exact fresh_world_inv|simpl; lia].
Defined.

Lemma run_with_cache_accounting_witness :
  1 <= LRU.capacity (CachedQuery.query_cache fresh_world) ∧
  ∃ hits w',
    Workload.run_with_cache store repeated_queries fresh_world
      = Ok (hits, w') ∧
    (hits + (length (CachedQuery.store_calls w')
             - length (CachedQuery.store_calls fresh_world))
     = length repeated_queries)%nat ∧
    (length (CachedQuery.store_calls fresh_world)
     ≤ length (CachedQuery.store_calls w'))%nat ∧
    LRU.len (CachedQuery.query_cache w')
      <= LRU.capacity (CachedQuery.query_cache fresh_world) ∧
    (size (LRU.cache (CachedQuery.query_cache w'))
     ≤ length (CachedQuery.store_calls w')
       - length (CachedQuery.store_calls fresh_world))%nat ∧
    Workload.coherent store w'.
Proof.
  split; [simpl; lia|].
  apply (run_with_cache_accounting store repeated_queries fresh_world).
  simpl. lia.
Defined.

Lemma run_with_cache_distinct_queries_witness :
  1 <= LRU.capacity (CachedQuery.query_cache fresh_world) ∧
  Z.of_nat (size (list_to_set repeated_queries : gset string))
    <= LRU.capacity (CachedQuery.query_cache fresh_world) ∧
  ∃ hits w',
    Workload.run_with_cache store repeated_queries fresh_world
      = Ok (hits, w') ∧
    (hits + size (list_to_set repeated_queries : gset string)
     = length repeated_queries)%nat ∧
    CachedQuery.store_calls w'
      = CachedQuery.store_calls fresh_world
        ++ map (λ q, (q, 10)) (first_seen repeated_queries) ∧
    NoDup (first_seen repeated_queries) ∧
    (∀ q, q ∈ first_seen repeated_queries ↔ q ∈ repeated_queries) ∧
    dom (LRU.cache (CachedQuery.query_cache w'))
      = list_to_set (map (λ q, CachedQuery.cache_key q 10) repeated_queries) ∧
    (∀ q, q ∈ repeated_queries →
          LRU.cache (CachedQuery.query_cache w') !! CachedQuery.cache_key q 10
          = Some (store q 10)) ∧
    LRU.len (CachedQuery.query_cache w')
      = Z.of_nat (size (list_to_set repeated_queries : gset string)).
Proof.
  assert (Z.of_nat (size (list_to_set repeated_queries : gset string))
          <= LRU.capacity (CachedQuery.query_cache fresh_world)) as Hsz.
  { pose proof (first_seen_length repeated_queries) as Hl.
    pose proof (first_seen_length_le repeated_queries) as Hle.
    simpl in *. lia. }
  split; [simpl; lia|]. split; [exact Hsz|].
  apply (run_with_cache_distinct_queries store repeated_queries fresh_world);
    [simpl; lia|exact Hsz].
Defined.

End CacheSamples.

(** * The further statements on the concrete retrievers *)

Section RetrieverSamples.
Import Example.
Local Existing Instance working.
Local Open Scope string_scope.
Local Open Scope list_scope.

Lemma hybrid_answers_ok : answers "q" hybrid_retrievers hybrid_answers.
Proof. repeat constructor; eexists; reflexivity. Qed.

Lemma hybrid_names_distinct : NoDup (Dict.keys hybrid_retrievers).
Proof.
  simpl. apply NoDup_cons. split; [|apply NoDup_singleton].
  rewrite list_elem_of_singleton. done.
Qed.

Lemma bm25_answer_distinct : NoDup (ids_of bm25_answer).
Proof.
  simpl. apply NoDup_cons. split; [|apply NoDup_singleton].
  rewrite list_elem_of_singleton. done.
Qed.

Lemma fused_score_is_weighted_sum_witness :
  NoDup (Dict.keys hybrid_retrievers) ∧
  answers "q" hybrid_retrievers hybrid_answers ∧
  ∃ out evs,
    retrieve (WeightedFusionRetriever hybrid_retrievers hybrid_weights) "q"
      = (Ok out, evs) ∧
    ∀ x, x ∈ out →
         score x
         = sum (contributions hybrid_weights hybrid_answers
                              (node_id (node x))) ∧
         ((length hybrid_retrievers ≤ 2)%nat →
          score x
          = fold_left num_add
              (contributions hybrid_weights hybrid_answers (node_id (node x)))
              num_zero).
Proof.
  split; [exact hybrid_names_distinct|]. split; [exact hybrid_answers_ok|].
  exact (fused_score_is_weighted_sum hybrid_retrievers hybrid_weights "q"
           hybrid_answers hybrid_names_distinct hybrid_answers_ok).
Defined.

Lemma fusion_bounded_by_candidates_witness :
  answers "q" hybrid_retrievers hybrid_answers ∧
  ∃ out evs,
    retrieve (WeightedFusionRetriever hybrid_retrievers hybrid_weights) "q"
      = (Ok out, evs) ∧
    (length out ≤ length (candidate_ids hybrid_answers))%nat ∧
    ∀ x, x ∈ out → node_id (node x) ∈ candidate_ids hybrid_answers.
Proof.
  split; [exact hybrid_answers_ok|].
  exact (fusion_bounded_by_candidates hybrid_retrievers hybrid_weights "q"
           hybrid_answers hybrid_answers_ok).
Defined.

Lemma fusion_of_single_retriever_witness :
  retrieve bm25_base "q" = (Ok bm25_answer, [CallBM25 "q"]) ∧
  NoDup (ids_of bm25_answer) ∧
  ∃ evs',
    retrieve (WeightedFusionRetriever [("bm25", bm25_base)] hybrid_weights) "q"
    = (Ok (sorted_desc (map (rescale (weight_of hybrid_weights "bm25"))
                            bm25_answer)), evs').
Proof.
  split; [reflexivity|]. split; [exact bm25_answer_distinct|].
  exact (fusion_of_single_retriever "bm25" bm25_base hybrid_weights "q"
           bm25_answer [CallBM25 "q"] eq_refl bm25_answer_distinct).
Defined.

Lemma rerank_output_sorted_witness :
  retrieve bm25_base "q" = (Ok bm25_answer, [CallBM25 "q"]) ∧
  retrieve (RerankedRetriever bm25_base 10 5) "q"
    = (Ok [mkNodeWithScore doc_b 9; mkNodeWithScore doc_a 5],
       [CallBM25 "q"; CallPredict [("q", "alpha"); ("q", "beta beta")]]) ∧
  StronglySorted not_below
    [mkNodeWithScore doc_b 9; mkNodeWithScore doc_a 5].
Proof.
  split; [reflexivity|]. split; [reflexivity|].
  exact (rerank_output_sorted bm25_base "q" bm25_answer [CallBM25 "q"] 10 5
           [mkNodeWithScore doc_b 9; mkNodeWithScore doc_a 5]
           [CallBM25 "q"; CallPredict [("q", "alpha"); ("q", "beta beta")]]
           eq_refl eq_refl).
Defined.

Lemma rerank_keeps_candidates_with_model_scores_witness :
  retrieve bm25_base "q" = (Ok bm25_answer, [CallBM25 "q"]) ∧
  predict (model_input "q" bm25_answer 10) = Some [5; 9] ∧
  length [5; 9] = length (slice_to bm25_answer 10) ∧
  (5 = 0 ∨ Z.of_nat (length (slice_to bm25_answer 10)) <= 5) ∧
  ∃ out evs,
    retrieve (RerankedRetriever bm25_base 10 5) "q" = (Ok out, evs) ∧
    out ≡ₚ zip_with (λ n s, mkNodeWithScore (node n) s)
                    (slice_to bm25_answer 10) [5; 9] ∧
    map node out ≡ₚ map node (slice_to bm25_answer 10) ∧
    map score out ≡ₚ [5; 9].
Proof.
  assert (5 = 0 ∨ Z.of_nat (length (slice_to bm25_answer 10)) <= 5) as Htk.
  { right. simpl. lia. }
  split; [reflexivity|]. split; [reflexivity|]. split; [reflexivity|].
  split; [exact Htk|].
  exact (rerank_keeps_candidates_with_model_scores bm25_base "q" bm25_answer
           [CallBM25 "q"] 10 5 [5; 9] eq_refl eq_refl eq_refl Htk).
Defined.

Lemma built_pipeline_call_sequence_witness :
  build (new_pipeline bm25_reranked) [doc_a; doc_b]
    = Ok (mkPipeline bm25_reranked (Some (RerankedRetriever bm25_base 10 5))) ∧
  ∃ r w' evs,
    pipeline_retrieve
      (mkPipeline bm25_reranked (Some (RerankedRetriever bm25_base 10 5)))
      "q" start = (r, w') ∧
    trace w' = trace start ++ evs ∧
    ((∃ tail,
        evs = retriever_calls bm25_reranked "q" ++ tail ∧
        (tail = [] ∨
         (use_reranking bm25_reranked = true ∧
          ∃ pairs, tail = [CallPredict pairs])) ∧
        ((∃ results elapsed, r = Ok (results, elapsed)) ∨
         (r = Raise ModelError ∧ use_reranking bm25_reranked = true ∧
          tail ≠ []))) ∨
     (∃ e,
        r = Raise e ∧ evs ≠ [] ∧
        evs `prefix_of` retriever_calls bm25_reranked "q" ∧
        ((last evs = Some (CallBM25 "q") ∧
          bm25_retrieve [doc_a; doc_b] (top_k bm25_reranked) "q" = Raise e) ∨
         (last evs = Some (CallVector "q") ∧
          vector_retrieve [doc_a; doc_b] (top_k bm25_reranked) "q"
            = Raise e)))).
Proof.
  split; [reflexivity|].
  exact (built_pipeline_call_sequence bm25_reranked [doc_a; doc_b]
           (mkPipeline bm25_reranked (Some (RerankedRetriever bm25_base 10 5)))
           "q" start eq_refl).
Defined.

Lemma hybrid_off_uses_bm25_only_witness :
  bm25_from_defaults [doc_a; doc_b] 5 = Ok tt ∧
  vector_index [doc_a; doc_b] 5 = Ok tt ∧
  bm25_retrieve [doc_a; doc_b] 5 "q" = Ok bm25_answer ∧
  ∃ self,
    build (new_pipeline (mkConfig true true false false 7 3 5 10))
          [doc_a; doc_b] = Ok self ∧
    pipeline self = Some (BM25Retriever [doc_a; doc_b] 5) ∧
    ∃ elapsed,
      pipeline_retrieve self "q" start
      = (Ok (bm25_answer, elapsed),
         mkWorld (trace start ++ [CallBM25 "q"]) (ticks start + 2)%nat).
Proof.
  split; [reflexivity|]. split; [reflexivity|]. split; [reflexivity|].
  exact (hybrid_off_uses_bm25_only 7 3 5 10 [doc_a; doc_b] "q" start
           bm25_answer eq_refl eq_refl eq_refl).
Defined.

Lemma reranked_pipeline_returns_at_most_top_k_witness :
  build (new_pipeline bm25_reranked) [doc_a; doc_b]
    = Ok (mkPipeline bm25_reranked (Some (RerankedRetriever bm25_base 10 5))) ∧
  use_reranking bm25_reranked = true ∧
  0 < top_k bm25_reranked ∧ 0 <= rerank_top_k bm25_reranked ∧
  pipeline_retrieve
    (mkPipeline bm25_reranked (Some (RerankedRetriever bm25_base 10 5)))
    "q" start
    = (Ok ([mkNodeWithScore doc_b 9; mkNodeWithScore doc_a 5], 1),
       mkWorld [CallBM25 "q"; CallPredict [("q", "alpha"); ("q", "beta beta")]]
               2) ∧
  Z.of_nat (length [mkNodeWithScore doc_b 9; mkNodeWithScore doc_a 5])
    <= Z.min (rerank_top_k bm25_reranked) (top_k bm25_reranked).
Proof.
  assert (0 < top_k bm25_reranked) as Hk by (simpl; lia).
  assert (0 <= rerank_top_k bm25_reranked) as Hrk by (simpl; lia).
  split; [reflexivity|]. split; [reflexivity|]. split; [exact Hk|].
  split; [exact Hrk|]. split; [reflexivity|].
  exact (reranked_pipeline_returns_at_most_top_k bm25_reranked [doc_a; doc_b]
           (mkPipeline bm25_reranked (Some (RerankedRetriever bm25_base 10 5)))
           "q" start
           (mkWorld [CallBM25 "q";
                     CallPredict [("q", "alpha"); ("q", "beta beta")]] 2)
           [mkNodeWithScore doc_b 9; mkNodeWithScore doc_a 5] 1
           eq_refl eq_refl Hk Hrk eq_refl).
Defined.

End RetrieverSamples.

Section RerankPrefix.
Context {S : Type} `{Number S} `{Collaborators S}.

Lemma slice_to_idem {A : Type} (l : list A) k :
  0 <= k → slice_to (slice_to l k) k = slice_to l k.
Proof.
  intros Hk. unfold slice_to. destruct (Z.leb_spec 0 k); [|lia].
  apply take_ge. rewrite length_take. lia.
Qed.

(** X23: for [fetch_k >= 0], candidates beyond the first [fetch_k] have
    no influence on reranking: the outcome, including the call to the
    model, is the one obtained from the first [fetch_k] candidates alone,
    and every returned node is one of them. *)
Theorem rerank_ignores_candidates_beyond_fetch_k
    query (cands : list (NodeWithScore S)) fetch_k top_k :
  0 <= fetch_k →
  rerank query cands fetch_k top_k
    = rerank query (take (Z.to_nat fetch_k) cands) fetch_k top_k ∧
  ∀ out evs, rerank query cands fetch_k top_k = (Ok out, evs) →
    ∀ x, x ∈ out →
         ∃ c, c ∈ take (Z.to_nat fetch_k) cands ∧ node x = node c.
Proof.
  intros Hk.
  assert (take (Z.to_nat fetch_k) cands = slice_to cands fetch_k) as ->.
  { unfold slice_to. by destruct (Z.leb_spec 0 fetch_k); [|lia]. }
  assert (rerank query cands fetch_k top_k
          = rerank query (slice_to cands fetch_k) fetch_k top_k) as Heq.
  { unfold rerank. by rewrite slice_to_idem. }
  split; [done|]. intros out evs Hr x Hx. rewrite Heq in Hr.
  by apply (rerank_output _ _ _ _ _ _ Hr).
Qed.

End RerankPrefix.

Section RerankPrefixSample.
Import Example.
Local Existing Instance working.
Local Open Scope string_scope.
Local Open Scope list_scope.

Lemma rerank_ignores_candidates_beyond_fetch_k_witness :
  0 <= 1 ∧
  rerank "q" bm25_answer 1 5
    = rerank "q" (take (Z.to_nat 1) bm25_answer) 1 5 ∧
  ∀ out evs, rerank "q" bm25_answer 1 5 = (Ok out, evs) →
    ∀ x, x ∈ out →
         ∃ c, c ∈ take (Z.to_nat 1) bm25_answer ∧ node x = node c.
Proof.
  split; [lia|].
  apply (rerank_ignores_candidates_beyond_fetch_k "q" bm25_answer 1 5). lia.
Defined.

End RerankPrefixSample.
